(** * skeema / tengo: ALTER TABLE clauses (alterclause.go)

    A shallow embedding of [vendor/github.com/skeema/tengo/alterclause.go]:
    the clause types whose rendering is conditional (ADD/DROP KEY,
    ADD/DROP FOREIGN KEY, AUTO_INCREMENT, create options) and the
    destructiveness check of MODIFY COLUMN, together with the part of the
    Go standard library these methods call ([strings], [strconv], [fmt],
    [regexp]).

    Go strings are byte sequences: they are modelled by [string], whose
    characters are the 256 values of [ascii]. *)

From Stdlib Require Import ZArith NArith String Ascii List Bool Lia DecimalString.
From stdpp Require Import gmap strings list.

Open Scope string_scope.
Open Scope Z_scope.

(** stdpp blocks the unfolding of [+:+] by [simpl]; the proofs below compute
    with string literals all the time. *)
#[local] Arguments String.append : simpl nomatch.

(* ===================================================================== *)
(** * Go standard library                                                  *)
(* ===================================================================== *)

(** The Unicode case tables behind [strings.ToLower] on non-ASCII input
    ([strings.Map(unicode.ToLower, s)]) are data of the Go runtime; they are
    an interface here.  Everything proved below holds for every table. *)
Class UnicodeTables := MapToLower : string → string.

Module strings.

(** [len(s)]: the number of bytes. *)
Definition len (s : string) : nat := String.length s.

(** [strings.HasPrefix(s, prefix)]. *)
Fixpoint HasPrefix (s prefix : string) {struct prefix} : bool :=
  match prefix with
  | EmptyString => true
  | String p prefix' =>
      match s with
      | EmptyString => false
      | String c s' => Ascii.eqb c p && HasPrefix s' prefix'
      end
  end.

(** [strings.TrimPrefix]-like cut that also reports whether the prefix
    was there (Go 1.20 calls it [strings.CutPrefix]); used by [regexp]. *)
Fixpoint CutPrefix (s prefix : string) {struct prefix} : option string :=
  match prefix with
  | EmptyString => Some s
  | String p prefix' =>
      match s with
      | EmptyString => None
      | String c s' => if Ascii.eqb c p then CutPrefix s' prefix' else None
      end
  end.

(** [strings.Contains(s, substr)]: [substr] starts at some offset of [s]. *)
Fixpoint Contains (s substr : string) : bool :=
  HasPrefix s substr ||
  match s with
  | EmptyString => false
  | String _ s' => Contains s' substr
  end.

(** [strings.ContainsRune(s, r)] for a rune below [utf8.RuneSelf] (the
    file only passes '('): Go searches for the byte. *)
Fixpoint ContainsRune (s : string) (r : ascii) : bool :=
  match s with
  | EmptyString => false
  | String c s' => Ascii.eqb c r || ContainsRune s' r
  end.

(** The slice expression [s[0:n]].  Go panics when [n] is out of range;
    [substring] truncates.  The one use, [oldType[0:len(oldType)-1]], is
    reached only with [len(oldType) >= 3] (lemma [enum_set_len]). *)
Definition slice_to (s : string) (n : nat) : string := substring 0 n s.

Definition isUpper (c : ascii) : bool :=
  (65 <=? nat_of_ascii c)%nat && (nat_of_ascii c <=? 90)%nat.

Definition isASCII (c : ascii) : bool := (nat_of_ascii c <? 128)%nat.

Definition lowerByte (c : ascii) : ascii :=
  if isUpper c then ascii_of_nat (nat_of_ascii c + 32) else c.

Fixpoint mapBytes (f : ascii → ascii) (s : string) : string :=
  match s with
  | EmptyString => EmptyString
  | String c s' => String (f c) (mapBytes f s')
  end.

Fixpoint allBytes (f : ascii → bool) (s : string) : bool :=
  match s with
  | EmptyString => true
  | String c s' => f c && allBytes f s'
  end.

(** [strings.ToLower(s)]: an all-ASCII string is lowered byte by byte
    ('A'..'Z' plus 'a' - 'A'); anything else goes through the Unicode
    tables. *)
Definition ToLower `{UnicodeTables} (s : string) : string :=
  if allBytes isASCII s then mapBytes lowerByte s else MapToLower s.

(** [strings.Split(s, sep)] for the one-byte separators the file passes
    (" " and "="): the pieces between the occurrences of [sep], one more
    than there are occurrences. *)
Fixpoint splitByte (sep : ascii) (s : string) : string * list string :=
  match s with
  | EmptyString => (EmptyString, [])
  | String c s' =>
      let '(piece, pieces) := splitByte sep s' in
      if Ascii.eqb c sep then (EmptyString, piece :: pieces)
      else (String c piece, pieces)
  end.

Definition Split (s : string) (sep : ascii) : list string :=
  let '(piece, pieces) := splitByte sep s in piece :: pieces.

(** [strings.Join(elems, sep)]. *)
Fixpoint Join (elems : list string) (sep : string) : string :=
  match elems with
  | [] => EmptyString
  | [e] => e
  | e :: rest => e +:+ sep +:+ Join rest sep
  end.

End strings.

Module strconv.

(** Go's [int] is 64 bits wide on the platforms skeema is built for. *)
Definition intSize : Z := 64.
Definition maxInt : Z := 2 ^ (intSize - 1) - 1.
Definition minInt : Z := - 2 ^ (intSize - 1).

Definition isDigit (c : ascii) : bool :=
  (48 <=? nat_of_ascii c)%nat && (nat_of_ascii c <=? 57)%nat.

Definition digitVal (c : ascii) : Z := Z.of_nat (nat_of_ascii c) - 48.

(** The number a string of decimal digits denotes (most significant
    digit first, leading zeros allowed). *)
Fixpoint digitsValue (acc : Z) (s : string) : Z :=
  match s with
  | EmptyString => acc
  | String c s' => digitsValue (acc * 10 + digitVal c) s'
  end.

Definition decimal (s : string) : Z := digitsValue 0 s.

(** [n, _ := strconv.Atoi(s)]: the value with the error dropped, as every
    call in the file does.  A syntax error gives 0; a value out of the
    range of [int] gives the nearest [int] (with [ErrRange], dropped). *)
Definition Atoi (s : string) : Z :=
  let '(neg, ds) :=
    match s with
    | String "-" ds => (true, ds)
    | String "+" ds => (false, ds)
    | _ => (false, s)
    end in
  match ds with
  | EmptyString => 0
  | _ =>
      if strings.allBytes isDigit ds then
        if neg then Z.max minInt (- decimal ds) else Z.min maxInt (decimal ds)
      else 0
  end.

End strconv.

Module fmt.

(** The verb [%d] on an unsigned integer. *)
Definition d (n : N) : string := NilZero.string_of_uint (N.to_uint n).

End fmt.

Module regexp.

(** The syntax the four patterns of the file are written in.  Each of
    them starts with [^], so a match can only begin at offset 0: the
    anchor is part of [FindStringSubmatch] below rather than a node.

    Go matches runes, this model bytes.  The classes used are [\d]
    (ASCII digits only in RE2 syntax) and [[^(]]; the byte '(' never
    occurs inside a multi-byte UTF-8 sequence, so both views cut the
    input at the same places. *)
Inductive Regexp : Type :=
| Lit (l : string)                 (* literal text *)
| Plus (class : ascii → bool)      (* [class+], greedy *)
| Alt (r1 r2 : Regexp)             (* [(?:r1|r2)], r1 preferred *)
| Cap (r : Regexp)                 (* [(r)], a capturing group *)
| Seq (r1 r2 : Regexp).            (* [r1r2] *)

(** The text between the start of [s] and the start of its suffix [rest]. *)
Definition consumed (s rest : string) : string :=
  substring 0 (String.length s - String.length rest) s.

(** [class+] once its first byte is taken: prefer to take more. *)
Fixpoint plusMore {X} (class : ascii → bool) (s : string)
    (k : string → option X) : option X :=
  match s with
  | String c s' =>
      if class c then
        match plusMore class s' k with
        | Some x => Some x
        | None => k s
        end
      else k s
  | EmptyString => k s
  end.

(** Backtracking in preference order (leftmost-first, as Go's [regexp]
    for Perl syntax): [k] is what has to match after [r]; the captures
    are collected in the order the groups close, which is the order of
    their opening parentheses when no group is inside another. *)
Fixpoint exec {X} (r : Regexp) (s : string) (caps : list string)
    (k : string → list string → option X) : option X :=
  match r with
  | Lit l =>
      match strings.CutPrefix s l with
      | Some rest => k rest caps
      | None => None
      end
  | Plus class =>
      match s with
      | String c s' =>
          if class c then plusMore class s' (fun rest => k rest caps) else None
      | EmptyString => None
      end
  | Alt r1 r2 =>
      match exec r1 s caps k with
      | Some x => Some x
      | None => exec r2 s caps k
      end
  | Cap r1 => exec r1 s caps (fun rest caps' => k rest (caps' ++ [consumed s rest])%list)
  | Seq r1 r2 => exec r1 s caps (fun mid caps' => exec r2 mid caps' k)
  end.

(** [re.FindStringSubmatch(s)] for a pattern [^r]: [None] is Go's nil
    slice; otherwise element 0 is the text of the match and element i the
    text of the i-th group. *)
Definition FindStringSubmatch (re : Regexp) (s : string) : option (list string) :=
  exec re s [] (fun rest caps => Some (consumed s rest :: caps)).

(** [\d] *)
Definition digit : ascii → bool := strconv.isDigit.

(** [[^(]] *)
Definition notParen (c : ascii) : bool := negb (Ascii.eqb c "(").

End regexp.

(* ===================================================================== *)
(** * Data model                                                           *)
(* ===================================================================== *)

(** Modelled from the spec: struct [Column] is declared outside
    alterclause.go.  These are the fields the methods embedded here read
    (section 6: a column exposes its engine-reported type string and its
    character set).  A [*Column] is modelled by its target: the clauses are
    built from two existing columns. *)
Record Column := mkColumn {
  Name : string;
  TypeInDB : string;
  CharSet : string
}.

(** Modelled from the spec: type [NextAutoIncMode] and its constants are
    declared outside alterclause.go (section 4.2: Ignore, OnlyIfIncreased,
    OnlyIfAlreadySet, and the default that always propagates). *)
Inductive NextAutoIncMode : Type :=
| NextAutoIncIgnore
| NextAutoIncIfIncreased
| NextAutoIncIfAlready
| NextAutoIncAlways.

(** Modelled from the spec: struct [StatementModifiers] is declared outside
    alterclause.go; these are the options section 4.2 lists and the file
    reads. *)
Record StatementModifiers := mkStatementModifiers {
  NextAutoInc : NextAutoIncMode;
  StrictIndexOrder : bool;
  StrictForeignKeyNaming : bool
}.

(** What alterclause.go consumes from the structural model: indexes and
    foreign keys with their fields and their [Definition()] methods, and
    [EscapeIdentifier].  None of it is in the file, so it is an interface. *)
Class StructuralModel := {
  Index : Type;
  Index_Name : Index → string;
  Index_PrimaryKey : Index → bool;
  Index_Definition : Index → string;
  ForeignKey : Type;
  ForeignKey_Name : ForeignKey → string;
  ForeignKey_Definition : ForeignKey → string;
  EscapeIdentifier : string → string
}.

(** What else alterclause.go consumes: tables, passed through untouched to
    [Column.Definition], that method, and [EscapeValueForCreateTable].
    None of it is in the file. *)
Class ColumnModel := {
  Table : Type;
  Column_Definition : Column → Table → string;
  EscapeValueForCreateTable : string → string
}.

(** How a call of a [Clause] method that may panic ends: it returns its
    text, or it panics with an error ([panic(fmt.Errorf(...))]), given here
    by the error's message. *)
Inductive outcome : Type :=
| Returns (text : string)
| Panics (message : string).

#[global] Instance NextAutoIncMode_eq_dec : EqDecision NextAutoIncMode.
Proof. solve_decision. Defined.

(* ===================================================================== *)
(** * The clauses                                                          *)
(* ===================================================================== *)

Module AddColumn.
Section Clause.
Context `{StructuralModel} `{ColumnModel}.

Record t := mk {
  table : Table;
  column : Column;
  PositionFirst : bool;
  PositionAfter : option Column   (* [nil] is [None] *)
}.

(** [func (ac AddColumn) Clause(_ StatementModifiers) string] *)
Definition Clause (ac : t) (_ : StatementModifiers) : outcome :=
  let positionClause :=
    if PositionFirst ac then
      (* Positioning variables are mutually exclusive *)
      match PositionAfter ac with
      | Some _ =>
          Panics ("New column " +:+ Name (column ac)
                  +:+ " cannot be both first and after another column")
      | None => Returns " FIRST"
      end
    else
      match PositionAfter ac with
      | Some after => Returns (" AFTER " +:+ EscapeIdentifier (Name after))
      | None => Returns ""
      end in
  match positionClause with
  | Panics message => Panics message
  | Returns positionClause =>
      Returns ("ADD COLUMN " +:+ Column_Definition (column ac) (table ac) +:+ positionClause)
  end.
End Clause.
End AddColumn.

Module DropColumn.
Section Clause.
Context `{StructuralModel}.

Record t := mk {
  column : Column
}.

(** [func (dc DropColumn) Clause(_ StatementModifiers) string] *)
Definition Clause (dc : t) (_ : StatementModifiers) : string :=
  "DROP COLUMN " +:+ EscapeIdentifier (Name (column dc)).

(** [func (dc DropColumn) Unsafe() bool]: DropColumn is always unsafe. *)
Definition Unsafe (dc : t) : bool := true.
End Clause.
End DropColumn.

Module AddIndex.
Section Clause.
Context `{StructuralModel}.

Record t := mk {
  index : Index;
  reorderOnly : bool  (* true if index is being dropped and re-added just to re-order *)
}.

(** [func (ai AddIndex) Clause(mods StatementModifiers) string] *)
Definition Clause (ai : t) (mods : StatementModifiers) : string :=
  if negb (StrictIndexOrder mods) && reorderOnly ai then ""
  else "ADD " +:+ Index_Definition (index ai).
End Clause.
End AddIndex.

Module DropIndex.
Section Clause.
Context `{StructuralModel}.

Record t := mk {
  index : Index;
  reorderOnly : bool
}.

(** [func (di DropIndex) Clause(mods StatementModifiers) string] *)
Definition Clause (di : t) (mods : StatementModifiers) : string :=
  if negb (StrictIndexOrder mods) && reorderOnly di then ""
  else if Index_PrimaryKey (index di) then "DROP PRIMARY KEY"
  else "DROP KEY " +:+ EscapeIdentifier (Index_Name (index di)).
End Clause.
End DropIndex.

Module AddForeignKey.
Section Clause.
Context `{StructuralModel}.

Record t := mk {
  foreignKey : ForeignKey;
  renameOnly : bool  (* true if this FK is being dropped and re-added just to change name *)
}.

(** [func (afk AddForeignKey) Clause(mods StatementModifiers) string] *)
Definition Clause (afk : t) (mods : StatementModifiers) : string :=
  if negb (StrictForeignKeyNaming mods) && renameOnly afk then ""
  else "ADD " +:+ ForeignKey_Definition (foreignKey afk).
End Clause.
End AddForeignKey.

Module DropForeignKey.
Section Clause.
Context `{StructuralModel}.

Record t := mk {
  foreignKey : ForeignKey;
  renameOnly : bool
}.

(** [func (dfk DropForeignKey) Clause(mods StatementModifiers) string] *)
Definition Clause (dfk : t) (mods : StatementModifiers) : string :=
  if negb (StrictForeignKeyNaming mods) && renameOnly dfk then ""
  else "DROP FOREIGN KEY " +:+ EscapeIdentifier (ForeignKey_Name (foreignKey dfk)).
End Clause.
End DropForeignKey.

Module RenameColumn.

Record t := mk {
  OldColumn : Column;
  NewName : string
}.

(** [func (rc RenameColumn) Clause(_ StatementModifiers) string] *)
Definition Clause (rc : t) (_ : StatementModifiers) : outcome :=
  Panics "Rename Column not yet supported".

(** [func (rc RenameColumn) Unsafe() bool]: always considered unsafe. *)
Definition Unsafe (rc : t) : bool := true.

End RenameColumn.

Module ChangeAutoIncrement.

(** Both fields are [uint64]; they are only compared and printed, so no
    wrap-around is involved. *)
Record t := mk {
  OldNextAutoIncrement : N;
  NewNextAutoIncrement : N
}.

(** [func (cai ChangeAutoIncrement) Clause(mods StatementModifiers) string] *)
Definition Clause (cai : t) (mods : StatementModifiers) : string :=
  if bool_decide (NextAutoInc mods = NextAutoIncIgnore) then ""
  else if bool_decide (NextAutoInc mods = NextAutoIncIfIncreased)
          && (NewNextAutoIncrement cai <=? OldNextAutoIncrement cai)%N then ""
  else if bool_decide (NextAutoInc mods = NextAutoIncIfAlready)
          && (OldNextAutoIncrement cai <=? 1)%N then ""
  else "AUTO_INCREMENT = " +:+ fmt.d (NewNextAutoIncrement cai).

End ChangeAutoIncrement.

Module ChangeCharSet.

Record t := mk {
  CharSet : string;
  Collation : string   (* blank string means "default collation for CharSet" *)
}.

(** [func (ccs ChangeCharSet) Clause(_ StatementModifiers) string] *)
Definition Clause (ccs : t) (_ : StatementModifiers) : string :=
  let collationClause :=
    if negb (String.eqb (Collation ccs) "") then " COLLATE = " +:+ Collation ccs
    else "" in
  "DEFAULT CHARACTER SET = " +:+ CharSet ccs +:+ collationClause.

End ChangeCharSet.

Module ChangeComment.
Section Clause.
Context `{ColumnModel}.

Record t := mk {
  NewComment : string
}.

(** [func (cc ChangeComment) Clause(_ StatementModifiers) string] *)
Definition Clause (cc : t) (_ : StatementModifiers) : string :=
  "COMMENT '" +:+ EscapeValueForCreateTable (NewComment cc) +:+ "'".
End Clause.
End ChangeComment.

Module ChangeStorageEngine.

Record t := mk {
  NewStorageEngine : string
}.

(** [func (cse ChangeStorageEngine) Clause(_ StatementModifiers) string] *)
Definition Clause (cse : t) (_ : StatementModifiers) : string :=
  "ENGINE=" +:+ NewStorageEngine cse.

(** [func (cse ChangeStorageEngine) Unsafe() bool]: always considered
    unsafe. *)
Definition Unsafe (cse : t) : bool := true.

End ChangeStorageEngine.

Module ChangeCreateOptions.

Record t := mk {
  OldCreateOptions : string;
  NewCreateOptions : string
}.

(** Map of known defaults that make options no longer show up in
    create_options or SHOW CREATE TABLE. *)
Definition knownDefaults : gmap string string :=
  list_to_map [
    ("MIN_ROWS", "0");
    ("MAX_ROWS", "0");
    ("AVG_ROW_LENGTH", "0");
    ("PACK_KEYS", "DEFAULT");
    ("STATS_PERSISTENT", "DEFAULT");
    ("STATS_AUTO_RECALC", "DEFAULT");
    ("STATS_SAMPLE_PAGES", "DEFAULT");
    ("CHECKSUM", "0");
    ("DELAY_KEY_WRITE", "0");
    ("ROW_FORMAT", "DEFAULT");
    ("KEY_BLOCK_SIZE", "0")
  ].

(** The closure [splitOpts]: a later token overwrites an earlier one with
    the same key; a token that does not split in two at "=" is skipped. *)
Definition splitOpts (full : string) : gmap string string :=
  fold_left
    (fun result kv =>
       match strings.Split kv "=" with
       | [k; v] => <[k := v]> result
       | _ => result
       end)
    (strings.Split full " ") ∅.

(** [for k, v := range m]: Go leaves the order in which a map is visited
    unspecified, and it differs from one loop to the next.  A visiting
    order is any arrangement of the entries. *)
Definition rangeOrder (m : gmap string string) (order : list (string * string)) : Prop :=
  order ≡ₚ map_to_list m.

(** Body of the first loop: which oldOpts changed in newOpts or are no
    longer present. *)
Definition changedOrGone (newOpts : gmap string string) (kv : string * string) : list string :=
  let '(k, v) := kv in
  match newOpts !! k with
  | Some newValue =>
      if negb (String.eqb newValue v) then [k +:+ "=" +:+ newValue] else []
  | None =>
      let def := match knownDefaults !! k with
                 | Some def => def
                 | None => "DEFAULT"
                 end in
      [k +:+ "=" +:+ def]
  end.

(** Body of the second loop: which newOpts were not in oldOpts. *)
Definition added (oldOpts : gmap string string) (kv : string * string) : list string :=
  let '(k, v) := kv in
  match oldOpts !! k with
  | Some _ => []
  | None => [k +:+ "=" +:+ v]
  end.

(** The two loops, run along given visiting orders; each iteration
    appends what its body emits. *)
Definition subclausesAlong (oldOpts newOpts : gmap string string)
    (order1 order2 : list (string * string)) : list string :=
  let subclauses := [] in
  let subclauses := fold_left (fun acc kv => acc ++ changedOrGone newOpts kv)%list order1 subclauses in
  let subclauses := fold_left (fun acc kv => acc ++ added oldOpts kv)%list order2 subclauses in
  subclauses.

(** [func (cco ChangeCreateOptions) Clause(_ StatementModifiers) string]:
    [Clause cco mods out] says that a call may return [out]. *)
Inductive Clause (cco : t) (mods : StatementModifiers) : string → Prop :=
| Clause_returns (order1 order2 : list (string * string)) :
    let oldOpts := splitOpts (OldCreateOptions cco) in
    let newOpts := splitOpts (NewCreateOptions cco) in
    rangeOrder oldOpts order1 →
    rangeOrder newOpts order2 →
    Clause cco mods (strings.Join (subclausesAlong oldOpts newOpts order1 order2) " ").

End ChangeCreateOptions.

Module ModifyColumn.

(** The [Table] field, a pointer handed through to [Column.Definition]
    by [Clause], plays no part in [Unsafe] and is left out. *)
Record t := mk {
  OldColumn : Column;
  NewColumn : Column;
  PositionFirst : bool;
  PositionAfter : option Column
}.

Import regexp.

(** [^decimal\((\d+),(\d+)\)] *)
Definition reDecimal : Regexp :=
  Seq (Lit "decimal(") (Seq (Cap (Plus digit)) (Seq (Lit ",")
    (Seq (Cap (Plus digit)) (Lit ")")))).

(** [^var(?:char|binary)\((\d+)\)] *)
Definition reVar : Regexp :=
  Seq (Lit "var") (Seq (Alt (Lit "char") (Lit "binary")) (Seq (Lit "(")
    (Seq (Cap (Plus digit)) (Lit ")")))).

(** [^[^(]+\((\d+)\)] *)
Definition reFsp : Regexp :=
  Seq (Plus notParen) (Seq (Lit "(") (Seq (Cap (Plus digit)) (Lit ")"))).

(** [^(?:float|double)\((\d+),(\d+)\)] *)
Definition reFloat : Regexp :=
  Seq (Alt (Lit "float") (Lit "double")) (Seq (Lit "(") (Seq (Cap (Plus digit))
    (Seq (Lit ",") (Seq (Cap (Plus digit)) (Lit ")"))))).

(** [matches[i]]: every pattern has as many groups as the indices used
    on its matches, so the default is never returned. *)
Definition at_ (matches : list string) (i : nat) : string := nth i matches "".

(** The closure [bothSamePrefix]. *)
Definition bothSamePrefix (oldType newType : string) (prefix : list string) : bool :=
  existsb
    (fun candidate =>
       strings.HasPrefix oldType candidate && strings.HasPrefix newType candidate)
    prefix.

(** The loop of the closure [isSafeSizeChange]: the ranks found so far,
    [-1] when none. *)
Fixpoint ranks (oldType newType : string) (ranking : list string) (n : Z)
    (oldRank newRank : Z) : Z * Z :=
  match ranking with
  | [] => (oldRank, newRank)
  | typeName :: ranking' =>
      let oldRank := if strings.HasPrefix oldType typeName then n else oldRank in
      let newRank := if strings.HasPrefix newType typeName then n else newRank in
      ranks oldType newType ranking' (n + 1) oldRank newRank
  end.

(** The closure [isSafeSizeChange]. *)
Definition isSafeSizeChange (oldType newType : string) (ranking : list string) : bool :=
  let '(oldRank, newRank) := ranks oldType newType ranking 0 (-1) (-1) in
  if (oldRank =? -1) || (newRank =? -1) then false
  else newRank >=? oldRank.

Definition intRank : list string := ["tinyint"; "smallint"; "mediumint"; "int"; "bigint"].
Definition blobRank : list string := ["tinyblob"; "blob"; "mediumblob"; "longblob"].
Definition textRank : list string := ["tinytext"; "text"; "mediumtext"; "longtext"].

Section Unsafe.
Context `{UnicodeTables}.

Definition oldTypeOf (mc : t) : string := strings.ToLower (TypeInDB (OldColumn mc)).
Definition newTypeOf (mc : t) : string := strings.ToLower (TypeInDB (NewColumn mc)).

(** [func (mc ModifyColumn) Unsafe() bool] *)
Definition Unsafe (mc : t) : bool :=
  if negb (String.eqb (CharSet (OldColumn mc)) (CharSet (NewColumn mc))) then true else
  let oldType := oldTypeOf mc in
  let newType := newTypeOf mc in
  if String.eqb oldType newType then false else

  (* Changing signedness is unsafe *)
  if (strings.Contains oldType "unsigned" && negb (strings.Contains newType "unsigned"))
     || (negb (strings.Contains oldType "unsigned") && strings.Contains newType "unsigned")
  then true else

  (* For enum and set, adding to end of value list is safe; any other change is unsafe *)
  if bothSamePrefix oldType newType ["enum"; "set"] then
    negb (strings.HasPrefix newType (strings.slice_to oldType (strings.len oldType - 1)))
  else

  (* decimal(a,b) -> decimal(x,y) unsafe if x < a or y < b *)
  if bothSamePrefix oldType newType ["decimal"] then
    match FindStringSubmatch reDecimal oldType, FindStringSubmatch reDecimal newType with
    | Some oldMatches, Some newMatches =>
        let oldPrecision := strconv.Atoi (at_ oldMatches 1) in
        let oldScale := strconv.Atoi (at_ oldMatches 2) in
        let newPrecision := strconv.Atoi (at_ newMatches 1) in
        let newScale := strconv.Atoi (at_ newMatches 2) in
        (newPrecision <? oldPrecision) || (newScale <? oldScale)
    | _, _ => true
    end
  else

  (* varchar(x) -> varchar(y) or varbinary(x) -> varbinary(y) unsafe if y < x *)
  if bothSamePrefix oldType newType ["varchar"; "varbinary"] then
    match FindStringSubmatch reVar oldType, FindStringSubmatch reVar newType with
    | Some oldMatches, Some newMatches =>
        let oldSize := strconv.Atoi (at_ oldMatches 1) in
        let newSize := strconv.Atoi (at_ newMatches 1) in
        newSize <? oldSize
    | _, _ => true
    end
  else

  (* time, timestamp, datetime: unsafe if decreasing or removing fractional
     second precision but always safe if adding fsp when none was there before *)
  if bothSamePrefix oldType newType ["time"; "timestamp"; "datetime"] then
    if negb (strings.ContainsRune oldType "(") then false
    else if negb (strings.ContainsRune newType "(") then true
    else
      match FindStringSubmatch reFsp oldType, FindStringSubmatch reFsp newType with
      | Some oldMatches, Some newMatches =>
          let oldSize := strconv.Atoi (at_ oldMatches 1) in
          let newSize := strconv.Atoi (at_ newMatches 1) in
          newSize <? oldSize
      | _, _ => true
      end
  else

  (* float or double *)
  if bothSamePrefix oldType newType ["float"; "double"]
     || (strings.HasPrefix oldType "float" && strings.HasPrefix newType "double") then
    if negb (strings.ContainsRune newType "(") then false   (* no parens = max allowed for type *)
    else if negb (strings.ContainsRune oldType "(") then true
    else
      match FindStringSubmatch reFloat oldType, FindStringSubmatch reFloat newType with
      | Some oldMatches, Some newMatches =>
          let oldPrecision := strconv.Atoi (at_ oldMatches 1) in
          let oldScale := strconv.Atoi (at_ oldMatches 2) in
          let newPrecision := strconv.Atoi (at_ newMatches 1) in
          let newScale := strconv.Atoi (at_ newMatches 2) in
          (newPrecision <? oldPrecision) || (newScale <? oldScale)
      | _, _ => true
      end
  else

  (* int, blob, text type families: unsafe if reducing to a smaller-storage type *)
  if isSafeSizeChange oldType newType intRank
     || isSafeSizeChange oldType newType blobRank
     || isSafeSizeChange oldType newType textRank
  then false
  else true.

End Unsafe.

Section Clause.
Context `{StructuralModel} `{ColumnModel}.

(** [func (mc ModifyColumn) Clause(_ StatementModifiers) string]; the
    field [mc.Table], which [t] leaves out, is the argument [table]. *)
Definition Clause (table : Table) (mc : t) (_ : StatementModifiers) : outcome :=
  let positionClause :=
    if PositionFirst mc then
      (* Positioning variables are mutually exclusive *)
      match PositionAfter mc with
      | Some _ =>
          Panics ("Modified column " +:+ Name (NewColumn mc)
                  +:+ " cannot be both first and after another column")
      | None => Returns " FIRST"
      end
    else
      match PositionAfter mc with
      | Some after => Returns (" AFTER " +:+ EscapeIdentifier (Name after))
      | None => Returns ""
      end in
  match positionClause with
  | Panics message => Panics message
  | Returns positionClause =>
      Returns ("MODIFY COLUMN " +:+ Column_Definition (NewColumn mc) table +:+ positionClause)
  end.
End Clause.
End ModifyColumn.

(* ===================================================================== *)
(** * Vocabulary of the statements                                         *)
(* ===================================================================== *)

Module reading.

(** What a pattern matches, stated without an order of preference:
    [Matches r s rest caps] when [r] matches the part of [s] before its
    suffix [rest], the groups capturing [caps]. *)
Inductive Matches : regexp.Regexp → string → string → list string → Prop :=
| M_Lit l rest :
    Matches (regexp.Lit l) (l +:+ rest) rest []
| M_Plus class run rest :
    run ≠ "" → strings.allBytes class run = true →
    Matches (regexp.Plus class) (run +:+ rest) rest []
| M_AltL r1 r2 s rest caps :
    Matches r1 s rest caps → Matches (regexp.Alt r1 r2) s rest caps
| M_AltR r1 r2 s rest caps :
    Matches r2 s rest caps → Matches (regexp.Alt r1 r2) s rest caps
| M_Cap r s rest caps :
    Matches r s rest caps →
    Matches (regexp.Cap r) s rest (caps ++ [regexp.consumed s rest])%list
| M_Seq r1 r2 s mid rest caps1 caps2 :
    Matches r1 s mid caps1 → Matches r2 mid rest caps2 →
    Matches (regexp.Seq r1 r2) s rest (caps1 ++ caps2)%list.

(** A non-empty run of decimal digits. *)
Definition digits (n : string) : Prop :=
  n ≠ "" ∧ strings.allBytes strconv.isDigit n = true.

(** The number a run of digits is read as by the classifier: its value,
    capped at the largest [int]. *)
Definition asInt (n : string) : Z := Z.min strconv.maxInt (strconv.decimal n).

(** The number [n] denotes fits an [int]. *)
Definition fitsInt (n : string) : Prop := strconv.decimal n <= strconv.maxInt.

(** [t] begins [name(n)] for a name accepted by [okName]. *)
Definition typeWith1 (okName : string → Prop) (t n : string) : Prop :=
  digits n ∧ ∃ name rest, okName name ∧ t = name +:+ "(" +:+ n +:+ ")" +:+ rest.

(** [t] begins [name(p,s)] for a name accepted by [okName]. *)
Definition typeWith2 (okName : string → Prop) (t p s : string) : Prop :=
  digits p ∧ digits s ∧
  ∃ name rest, okName name ∧ t = name +:+ "(" +:+ p +:+ "," +:+ s +:+ ")" +:+ rest.

(** [t] parses as [decimal(p,s)]; a qualifier such as [ unsigned] may
    follow. *)
Definition isDecimal : string → string → string → Prop :=
  typeWith2 (fun name => name = "decimal").

(** [t] parses as [varchar(n)] or [varbinary(n)]. *)
Definition isVar : string → string → Prop :=
  typeWith1 (fun name => name = "varchar" ∨ name = "varbinary").

(** [t] parses as [float(p,s)] or [double(p,s)]. *)
Definition isFloat : string → string → string → Prop :=
  typeWith2 (fun name => name = "float" ∨ name = "double").

(** [t] parses as [name(n)], whatever the name. *)
Definition isFsp : string → string → Prop :=
  typeWith1 (fun name => name ≠ "" ∧ strings.ContainsRune name "(" = false).

(** [t] has a parenthetical. *)
Definition hasParen (t : string) : bool := strings.ContainsRune t "(".

(** [t] carries the qualifier [unsigned]. *)
Definition isUnsigned (t : string) : bool := strings.Contains t "unsigned".

(** [t] is the type [name] with or without fractional-second precision. *)
Definition isTimeType (name t : string) : Prop :=
  t = name ∨ ∃ n, digits n ∧ t = name +:+ "(" +:+ n +:+ ")".

(** Both types begin with [prefix]. *)
Definition bothStart (prefix oldType newType : string) : Prop :=
  strings.HasPrefix oldType prefix = true ∧ strings.HasPrefix newType prefix = true.

End reading.

(** Unicode tables that map nothing.  The concrete type strings evaluated
    below are ASCII, for which [strings.ToLower] never consults the
    tables. *)
Definition noTables : UnicodeTables := fun s => s.

(** A structural model small enough to evaluate: an index or a foreign key
    is (name, primary-key flag, text of its definition). *)
Definition toyModel : StructuralModel := {|
  Index := string * bool * string;
  Index_Name := fun i => i.1.1;
  Index_PrimaryKey := fun i => i.1.2;
  Index_Definition := fun i => i.2;
  ForeignKey := string * string;
  ForeignKey_Name := fun f => f.1;
  ForeignKey_Definition := fun f => f.2;
  EscapeIdentifier := fun s => "`" +:+ s +:+ "`"
|}.

(** The column change [oldType -> newType] within one character set. *)
Definition retype (oldType newType : string) : ModifyColumn.t :=
  ModifyColumn.mk (mkColumn "c" oldType "utf8mb4") (mkColumn "c" newType "utf8mb4") false None.


(** A clause that drops two create options, and modifiers to render it
    with ([ChangeCreateOptions.Clause] ignores them). *)
Definition dropTwo : ChangeCreateOptions.t :=
  ChangeCreateOptions.mk "ROW_FORMAT=COMPRESSED KEY_BLOCK_SIZE=8" "".

Definition anyMods : StatementModifiers :=
  mkStatementModifiers NextAutoIncAlways false false.

(** A column model small enough to evaluate: no table data, a column
    defined by its quoted name and its type. *)
Definition toyColumns : ColumnModel := {|
  Table := unit;
  Column_Definition := fun c _ => "`" +:+ Name c +:+ "` " +:+ TypeInDB c;
  EscapeValueForCreateTable := fun s => s
|}.

(** A clause whose new options list the old ones in another order. *)
Definition reordered : ChangeCreateOptions.t :=
  ChangeCreateOptions.mk "ROW_FORMAT=COMPRESSED KEY_BLOCK_SIZE=8"
                         "KEY_BLOCK_SIZE=8 ROW_FORMAT=COMPRESSED".
(** The type families of [ModifyColumn.Unsafe]. *)
Module families.

(** The names tested by [bothSamePrefix]. *)
Definition prefixFamilies : list string :=
  ["enum"; "set"; "decimal"; "varchar"; "varbinary"; "time"; "timestamp"; "datetime";
   "float"; "double"].

(** The rankings tested by [isSafeSizeChange]. *)
Definition rankings : list (list string) :=
  [ModifyColumn.intRank; ModifyColumn.blobRank; ModifyColumn.textRank].

(** The two type strings belong to one family: both start with one of the
    family names, or the old one starts with [float] and the new one with
    [double], or both start with names of one ranking. *)
Definition related (oldType newType : string) : Prop :=
  (∃ p, p ∈ prefixFamilies ∧ reading.bothStart p oldType newType)
  ∨ (strings.HasPrefix oldType "float" = true ∧ strings.HasPrefix newType "double" = true)
  ∨ (∃ ranking a b,
        ranking ∈ rankings ∧ a ∈ ranking ∧ b ∈ ranking
        ∧ strings.HasPrefix oldType a = true ∧ strings.HasPrefix newType b = true).

(** A fixed-width type: [char(n)] or [binary(n)]. *)
Definition fixedWidth (t : string) : Prop :=
  strings.HasPrefix t "char" = true ∨ strings.HasPrefix t "binary" = true.

End families.

(** Reading and applying create options. *)
Module options.

(** How often the byte [c] occurs in [s]. *)
Fixpoint countByte (c : ascii) (s : string) : nat :=
  match s with
  | EmptyString => 0
  | String a s' => (if Ascii.eqb a c then 1 else 0) + countByte c s'
  end.

(** Text that can stand on either side of an assignment: no space and no
    [=] in it. *)
Definition clean (s : string) : Prop :=
  strings.ContainsRune s " " = false ∧ strings.ContainsRune s "=" = false.

(** The value an option is reset to when the new options drop it. *)
Definition resetValue (k : string) : string :=
  match ChangeCreateOptions.knownDefaults !! k with
  | Some def => def
  | None => "DEFAULT"
  end.

(** The text of the assignment of [kv.2] to [kv.1]. *)
Definition assign (kv : string * string) : string := kv.1 +:+ "=" +:+ kv.2.

(** The assignments of the two loops as (key, value) pairs. *)
Definition edits (oldOpts newOpts : gmap string string)
    (order1 order2 : list (string * string)) : list (string * string) :=
  (flat_map (fun '(k, v) =>
               match newOpts !! k with
               | Some newValue => if negb (String.eqb newValue v) then [(k, newValue)] else []
               | None => [(k, resetValue k)]
               end) order1
   ++ flat_map (fun '(k, v) =>
                  match oldOpts !! k with
                  | Some _ => []
                  | None => [(k, v)]
                  end) order2)%list.

(** The assignment [kv] belongs to the first group: its key is an old
    key whose value changed, assigned the new value, or an old key gone
    from the new options, assigned its reset value. *)
Definition changedOrReset (oldOpts newOpts : gmap string string)
    (kv : string * string) : Prop :=
  (∃ ov, oldOpts !! kv.1 = Some ov ∧ newOpts !! kv.1 = Some kv.2 ∧ kv.2 ≠ ov)
  ∨ (is_Some (oldOpts !! kv.1) ∧ newOpts !! kv.1 = None ∧ kv.2 = resetValue kv.1).

(** The assignment [kv] belongs to the second group: its key is only in
    the new options, with this value. *)
Definition onlyNew (oldOpts newOpts : gmap string string) (kv : string * string) : Prop :=
  oldOpts !! kv.1 = None ∧ newOpts !! kv.1 = Some kv.2.

(** The list [l] holds exactly the assignments of the group [group], no
    key twice. *)
Definition listsOnce (group : string * string → Prop) (l : list (string * string)) : Prop :=
  NoDup (l.*1) ∧ ∀ kv, kv ∈ l ↔ group kv.

(** What an ALTER TABLE with the assignments [text] makes of the options
    [opts]: the assigned keys take their new values, the others stay. *)
Definition applied (text : string) (opts : gmap string string) : gmap string string :=
  ChangeCreateOptions.splitOpts text ∪ opts.

End options.

(* ===================================================================== *)
(** * Facts about the library model                                        *)
(* ===================================================================== *)

Section StringFacts.
Import strings.

Lemma append_assoc (a b c : string) : (a +:+ b) +:+ c = a +:+ (b +:+ c).
Proof. induction a as [|x a IH]; simpl; [reflexivity | now rewrite IH]. Qed.

Lemma append_nil_r (a : string) : a +:+ "" = a.
Proof. induction a as [|x a IH]; simpl; [reflexivity | now rewrite IH]. Qed.

Lemma append_length (a b : string) :
  String.length (a +:+ b) = (String.length a + String.length b)%nat.
Proof. induction a as [|x a IH]; simpl; [reflexivity | now rewrite IH]. Qed.

Lemma HasPrefix_app s p : HasPrefix s p = true ↔ ∃ t, s = p +:+ t.
Proof.
  revert s; induction p as [|a p IH]; intros s; simpl.
  - split; [exists s; reflexivity | reflexivity].
  - destruct s as [|c s]; simpl.
    + split; [discriminate | intros [t Ht]; discriminate].
    + rewrite andb_true_iff, Ascii.eqb_eq, IH. split.
      * intros [-> [t ->]]. eauto.
      * intros [t Ht]. injection Ht as -> ->. eauto.
Qed.

Lemma HasPrefix_append p t : HasPrefix (p +:+ t) p = true.
Proof. apply HasPrefix_app; eauto. Qed.

Lemma CutPrefix_Some s p r : CutPrefix s p = Some r ↔ s = p +:+ r.
Proof.
  revert s; induction p as [|a p IH]; intros s; simpl.
  - split; [intros [= ->] | intros ->]; reflexivity.
  - destruct s as [|c s]; simpl.
    + split; discriminate.
    + destruct (Ascii.eqb_spec c a) as [->|Hne].
      * rewrite IH. split; [intros -> | intros [= ->]]; reflexivity.
      * split; [discriminate | intros [= -> _]; congruence].
Qed.

Lemma CutPrefix_append p r : CutPrefix (p +:+ r) p = Some r.
Proof. apply CutPrefix_Some; reflexivity. Qed.

Lemma CutPrefix_HasPrefix s p : HasPrefix s p = false → CutPrefix s p = None.
Proof.
  intros Hp. destruct (CutPrefix s p) as [r|] eqn:E; [|reflexivity].
  apply CutPrefix_Some in E. subst s. rewrite HasPrefix_append in Hp. discriminate.
Qed.

Lemma HasPrefix_trans s p q : HasPrefix s p = true → HasPrefix p q = true → HasPrefix s q = true.
Proof.
  rewrite !HasPrefix_app. intros [t ->] [u ->]. exists (u +:+ t).
  apply append_assoc.
Qed.

(** Two prefixes of one string, neither a prefix of the other: impossible. *)
Lemma HasPrefix_clash s p q :
  HasPrefix s p = true → HasPrefix s q = true →
  HasPrefix p q = false → HasPrefix q p = false → False.
Proof.
  revert s q; induction p as [|a p IH]; intros s q; simpl.
  - intros _ _ _. destruct q; discriminate.
  - destruct q as [|b q]; [discriminate|]. destruct s as [|c s]; simpl; [discriminate|].
    rewrite !andb_true_iff, !Ascii.eqb_eq. intros [-> Hp] [<- Hq].
    rewrite Ascii.eqb_refl. simpl. eauto.
Qed.

Lemma substring_0_append (a b : string) : substring 0 (String.length a) (a +:+ b) = a.
Proof.
  induction a as [|x a IH]; simpl.
  - destruct b; reflexivity.
  - now rewrite IH.
Qed.

(** [s[0:len(s)-1]] drops the last byte. *)
Lemma slice_to_init body (c : ascii) :
  slice_to (body +:+ String c "") (len (body +:+ String c "") - 1) = body.
Proof.
  unfold slice_to, len. rewrite append_length. simpl.
  replace (String.length body + 1 - 1)%nat with (String.length body) by lia.
  apply substring_0_append.
Qed.

Lemma string_snoc (s : string) : s ≠ "" → ∃ body c, s = body +:+ String c "".
Proof.
  induction s as [|a s IH]; [congruence|]. intros _.
  destruct s as [|b s].
  - exists "", a. reflexivity.
  - destruct IH as (body & c & E); [discriminate|]. exists (String a body), c.
    simpl. f_equal. exact E.
Qed.

Lemma append_snoc_inj a b (c d : ascii) :
  a +:+ String c "" = b +:+ String d "" → a = b ∧ c = d.
Proof.
  revert b; induction a as [|x a IH]; intros [|y b]; simpl; intros E.
  - injection E as ->. auto.
  - injection E as -> E. destruct b; discriminate.
  - injection E as -> E. destruct a; discriminate.
  - injection E as -> E. apply IH in E as [-> ->]. auto.
Qed.

Lemma ContainsRune_app s t r : ContainsRune (s +:+ t) r = ContainsRune s r || ContainsRune t r.
Proof. induction s as [|c s IH]; simpl; [reflexivity|]. rewrite IH. apply orb_assoc. Qed.

End StringFacts.

Section RegexpFacts.
Import strings regexp reading.

Lemma consumed_app run rest : consumed (run +:+ rest) rest = run.
Proof.
  unfold consumed. rewrite append_length.
  replace (String.length run + String.length rest - String.length rest)%nat
    with (String.length run) by lia.
  apply substring_0_append.
Qed.

Lemma exec_Seq {X} r1 r2 s caps (k : string → list string → option X) :
  exec (Seq r1 r2) s caps k = exec r1 s caps (fun mid caps' => exec r2 mid caps' k).
Proof. reflexivity. Qed.

Lemma exec_Cap {X} r s caps (k : string → list string → option X) :
  exec (Cap r) s caps k
  = exec r s caps (fun rest caps' => k rest (caps' ++ [consumed s rest])%list).
Proof. reflexivity. Qed.

Lemma exec_Lit_app {X} l rest caps (k : string → list string → option X) :
  exec (Lit l) (l +:+ rest) caps k = k rest caps.
Proof. simpl. now rewrite CutPrefix_append. Qed.

Lemma exec_Lit_reject {X} c0 l c t caps (k : string → list string → option X) :
  Ascii.eqb c c0 = false → exec (Lit (String c0 l)) (String c t) caps k = None.
Proof. intros E. simpl. now rewrite E. Qed.

Lemma exec_Alt_l {X} r1 r2 s caps (k : string → list string → option X) x :
  exec r1 s caps k = Some x → exec (Alt r1 r2) s caps k = Some x.
Proof. intros E. simpl. now rewrite E. Qed.

Lemma exec_Alt_r {X} r1 r2 s caps (k : string → list string → option X) :
  exec r1 s caps k = None → exec (Alt r1 r2) s caps k = exec r2 s caps k.
Proof. intros E. simpl. now rewrite E. Qed.

(** A greedy [class+] in front of something that cannot start with a byte
    of the class takes the whole run: giving bytes back never helps. *)
Lemma plusMore_greedy {X} class run rest (k : string → option X) :
  allBytes class run = true →
  (∀ c t, rest = String c t → class c = false) →
  (∀ c t, class c = true → k (String c t) = None) →
  plusMore class (run +:+ rest) k = k rest.
Proof.
  intros Hrun Hstop Hk. induction run as [|c run IH]; simpl in *.
  - destruct rest as [|c t]; [reflexivity|]. simpl. now rewrite (Hstop c t eq_refl).
  - apply andb_true_iff in Hrun as [Hc Hrun]. rewrite Hc, (IH Hrun).
    destruct (k rest) eqn:E; [reflexivity|]. now apply Hk.
Qed.

Lemma exec_Plus_greedy {X} class run rest caps (k : string → list string → option X) :
  run ≠ "" → allBytes class run = true →
  (∀ c t, rest = String c t → class c = false) →
  (∀ c t caps', class c = true → k (String c t) caps' = None) →
  exec (Plus class) (run +:+ rest) caps k = k rest caps.
Proof.
  intros Hne Hrun Hstop Hk. destruct run as [|c run]; [congruence|]. simpl in *.
  apply andb_true_iff in Hrun as [Hc Hrun]. rewrite Hc.
  apply (plusMore_greedy class run rest (fun rest => k rest caps)); auto.
Qed.

Lemma plusMore_sound {X} class s (k : string → option X) x :
  plusMore class s k = Some x →
  ∃ run rest, allBytes class run = true ∧ s = run +:+ rest ∧ k rest = Some x.
Proof.
  induction s as [|c s IH]; simpl.
  - intros E. exists "", "". auto.
  - destruct (class c) eqn:Hc.
    + destruct (plusMore class s k) eqn:E.
      * intros [= ->]. destruct (IH eq_refl) as (run & rest & Hr & -> & Hk).
        exists (String c run), rest. simpl. rewrite Hc. auto.
      * intros Hk. exists "", (String c s). auto.
    + intros Hk. exists "", (String c s). auto.
Qed.

(** Whatever [exec] finds is a match. *)
Lemma exec_sound {X} r : ∀ s caps (k : string → list string → option X) x,
  exec r s caps k = Some x →
  ∃ rest caps', Matches r s rest caps' ∧ k rest (caps ++ caps')%list = Some x.
Proof.
  induction r as [l|class|r1 IH1 r2 IH2|r IH|r1 IH1 r2 IH2]; intros s caps k x; simpl.
  - destruct (CutPrefix s l) as [rest|] eqn:E; [|discriminate].
    apply CutPrefix_Some in E as ->. intros Hk. exists rest, [].
    rewrite app_nil_r. split; [constructor | assumption].
  - destruct s as [|c s]; [discriminate|]. destruct (class c) eqn:Hc; [|discriminate].
    intros E. apply plusMore_sound in E as (run & rest & Hr & -> & Hk).
    exists rest, []. rewrite app_nil_r. split; [|assumption].
    apply (M_Plus class (String c run) rest); [discriminate|]. simpl. now rewrite Hc.
  - destruct (exec r1 s caps k) eqn:E.
    + intros [= ->]. apply IH1 in E as (rest & caps' & Hm & Hk).
      exists rest, caps'. split; [now apply M_AltL | assumption].
    + intros E2. apply IH2 in E2 as (rest & caps' & Hm & Hk).
      exists rest, caps'. split; [now apply M_AltR | assumption].
  - intros E. apply IH in E as (rest & caps' & Hm & Hk).
    exists rest, (caps' ++ [consumed s rest])%list. split; [now constructor|].
    now rewrite app_assoc.
  - intros E. apply IH1 in E as (mid & caps1 & Hm1 & E).
    apply IH2 in E as (rest & caps2 & Hm2 & Hk).
    exists rest, (caps1 ++ caps2)%list. split; [econstructor; eassumption|].
    now rewrite app_assoc.
Qed.

Lemma Find_sound re s m :
  FindStringSubmatch re s = Some m →
  ∃ rest caps, Matches re s rest caps ∧ m = consumed s rest :: caps.
Proof.
  intros E. apply exec_sound in E as (rest & caps & Hm & [= <-]). eauto.
Qed.

Lemma digit_not_comma c : digit c = true → Ascii.eqb c "," = false.
Proof. destruct c as [[] [] [] [] [] [] [] []]; try reflexivity; discriminate. Qed.

Lemma digit_not_close c : digit c = true → Ascii.eqb c ")" = false.
Proof. destruct c as [[] [] [] [] [] [] [] []]; try reflexivity; discriminate. Qed.

Lemma notParen_not_open c : notParen c = true → Ascii.eqb c "(" = false.
Proof. unfold notParen. now destruct (Ascii.eqb c "("). Qed.

End RegexpFacts.

Section PatternTails.
Import strings regexp reading ModifyColumn.

Lemma exec_Lit {X} l s caps (k : string → list string → option X) :
  exec (Lit l) s caps k
  = match CutPrefix s l with Some rest => k rest caps | None => None end.
Proof. reflexivity. Qed.

(** [(\d+)] in front of a pattern [r] that cannot start with a digit,
    on a run of digits followed by something else. *)
Lemma exec_digits_then {X} r n c0 rest caps (k : string → list string → option X) :
  digits n → digit c0 = false →
  (∀ c t caps', digit c = true → exec r (String c t) caps' k = None) →
  exec (Seq (Cap (Plus digit)) r) (n +:+ String c0 rest) caps k
  = exec r (String c0 rest) (caps ++ [n])%list k.
Proof.
  intros [Hne Hd] Hc0 Hr. rewrite exec_Seq, exec_Cap.
  rewrite exec_Plus_greedy; auto.
  - now rewrite consumed_app.
  - now intros c t [= <- _].
Qed.

(** The tail [(\d+)\)] of the patterns. *)
Lemma exec_tail1 {X} n rest caps (k : string → list string → option X) :
  digits n →
  exec (Seq (Cap (Plus digit)) (Lit ")")) (n +:+ ")" +:+ rest) caps k
  = k rest (caps ++ [n])%list.
Proof.
  intros Hn. change (")" +:+ rest) with (String ")" rest).
  rewrite (exec_digits_then (Lit ")") n ")" rest caps k Hn);
    [ reflexivity | reflexivity | ].
  intros c t caps' Hc. apply exec_Lit_reject. now apply digit_not_close.
Qed.

(** The tail [(\d+),(\d+)\)]. *)
Lemma exec_tail2 {X} p s rest caps (k : string → list string → option X) :
  digits p → digits s →
  exec (Seq (Cap (Plus digit)) (Seq (Lit ",") (Seq (Cap (Plus digit)) (Lit ")"))))
       (p +:+ "," +:+ s +:+ ")" +:+ rest) caps k
  = k rest ((caps ++ [p]) ++ [s])%list.
Proof.
  intros Hp Hs. change ("," +:+ s +:+ ")" +:+ rest) with (String "," (s +:+ ")" +:+ rest)).
  rewrite (exec_digits_then _ p "," _ caps k Hp); [ | reflexivity | ].
  - rewrite exec_Seq. change (String "," (s +:+ ")" +:+ rest)) with ("," +:+ s +:+ ")" +:+ rest).
    rewrite exec_Lit_app. now apply exec_tail1.
  - intros c t caps' Hc. rewrite exec_Seq. apply exec_Lit_reject. now apply digit_not_comma.
Qed.

Lemma Find_decimal t p s :
  isDecimal t p s → ∃ whole, FindStringSubmatch reDecimal t = Some [whole; p; s].
Proof.
  intros (Hp & Hs & name & rest & -> & ->). unfold FindStringSubmatch, reDecimal.
  rewrite exec_Seq.
  change ("decimal" +:+ "(" +:+ p +:+ "," +:+ s +:+ ")" +:+ rest)
    with ("decimal(" +:+ p +:+ "," +:+ s +:+ ")" +:+ rest) at 1.
  rewrite exec_Lit_app, exec_tail2 by assumption. eauto.
Qed.

End PatternTails.

Section PatternReading.
Import strings regexp reading ModifyColumn.

Ltac inv_matches :=
  repeat match goal with
  | H : Matches (Seq _ _) _ _ _ |- _ => inversion H; subst; clear H
  | H : Matches (Cap _) _ _ _ |- _ => inversion H; subst; clear H
  | H : Matches (Alt _ _) _ _ _ |- _ => inversion H; subst; clear H
  | H : Matches (Lit _) _ _ _ |- _ => inversion H; subst; clear H
  | H : Matches (Plus _) _ _ _ |- _ => inversion H; subst; clear H
  end.

Lemma Find_decimal_inv t m :
  FindStringSubmatch reDecimal t = Some m → ∃ p s, isDecimal t p s.
Proof.
  intros E. apply Find_sound in E as (rest & caps & Hm & _).
  unfold reDecimal in Hm. inv_matches.
  match goal with
  | Hp : ?p ≠ "", Hs : ?s ≠ "" |- context [?p +:+ "," +:+ ?s +:+ ")" +:+ rest] =>
      exists p, s; repeat split; auto; exists "decimal", rest; split; reflexivity
  end.
Qed.

Lemma Find_var t n :
  isVar t n → ∃ whole, FindStringSubmatch reVar t = Some [whole; n].
Proof.
  intros (Hn & name & rest & Hname & ->). unfold FindStringSubmatch, reVar.
  rewrite exec_Seq. destruct Hname as [-> | ->].
  - change ("varchar" +:+ "(" +:+ n +:+ ")" +:+ rest)
      with ("var" +:+ "char" +:+ "(" +:+ n +:+ ")" +:+ rest) at 1.
    rewrite exec_Lit_app, exec_Seq.
    eexists. apply exec_Alt_l. rewrite exec_Lit_app, exec_Seq.
    change ("(" +:+ n +:+ ")" +:+ rest) with ("(" +:+ (n +:+ ")" +:+ rest)) at 1.
    rewrite exec_Lit_app, exec_tail1 by assumption. reflexivity.
  - change ("varbinary" +:+ "(" +:+ n +:+ ")" +:+ rest)
      with ("var" +:+ "binary" +:+ "(" +:+ n +:+ ")" +:+ rest) at 1.
    rewrite exec_Lit_app, exec_Seq, exec_Alt_r by reflexivity.
    rewrite exec_Lit_app, exec_Seq.
    change ("(" +:+ n +:+ ")" +:+ rest) with ("(" +:+ (n +:+ ")" +:+ rest)) at 1.
    rewrite exec_Lit_app, exec_tail1 by assumption. eauto.
Qed.

Lemma Find_var_inv t m :
  FindStringSubmatch reVar t = Some m → ∃ n, isVar t n.
Proof.
  intros E. apply Find_sound in E as (rest & caps & Hm & _).
  unfold reVar in Hm. inv_matches.
  - match goal with
    | Hn : ?n ≠ "" |- _ =>
        exists n; repeat split; auto; exists "varchar", rest; split; [left|]; reflexivity
    end.
  - match goal with
    | Hn : ?n ≠ "" |- _ =>
        exists n; repeat split; auto; exists "varbinary", rest; split; [right|]; reflexivity
    end.
Qed.

Lemma Find_float t p s :
  isFloat t p s → ∃ whole, FindStringSubmatch reFloat t = Some [whole; p; s].
Proof.
  intros (Hp & Hs & name & rest & Hname & ->). unfold FindStringSubmatch, reFloat.
  rewrite exec_Seq. destruct Hname as [-> | ->].
  - eexists. apply exec_Alt_l. rewrite exec_Lit_app, exec_Seq.
    change ("(" +:+ p +:+ "," +:+ s +:+ ")" +:+ rest)
      with ("(" +:+ (p +:+ "," +:+ s +:+ ")" +:+ rest)) at 1.
    rewrite exec_Lit_app, exec_tail2 by assumption. reflexivity.
  - rewrite exec_Alt_r by reflexivity. rewrite exec_Lit_app, exec_Seq.
    change ("(" +:+ p +:+ "," +:+ s +:+ ")" +:+ rest)
      with ("(" +:+ (p +:+ "," +:+ s +:+ ")" +:+ rest)) at 1.
    rewrite exec_Lit_app, exec_tail2 by assumption. eauto.
Qed.

Lemma Find_float_inv t m :
  FindStringSubmatch reFloat t = Some m → ∃ p s, isFloat t p s.
Proof.
  intros E. apply Find_sound in E as (rest & caps & Hm & _).
  unfold reFloat in Hm. inv_matches.
  - match goal with
    | Hp : ?p ≠ "", Hs : ?s ≠ "" |- context [?p +:+ "," +:+ ?s +:+ ")" +:+ rest] =>
        exists p, s; repeat split; auto; exists "float", rest; split; [left|]; reflexivity
    end.
  - match goal with
    | Hp : ?p ≠ "", Hs : ?s ≠ "" |- context [?p +:+ "," +:+ ?s +:+ ")" +:+ rest] =>
        exists p, s; repeat split; auto; exists "double", rest; split; [right|]; reflexivity
    end.
Qed.

Lemma allBytes_notParen name :
  allBytes notParen name = negb (ContainsRune name "(").
Proof.
  induction name as [|c name IH]; simpl; [reflexivity|].
  rewrite IH. unfold notParen. now destruct (Ascii.eqb c "(").
Qed.

Lemma Find_fsp t n :
  isFsp t n → ∃ whole, FindStringSubmatch reFsp t = Some [whole; n].
Proof.
  intros (Hn & name & rest & [Hne Hname] & ->). unfold FindStringSubmatch, reFsp.
  rewrite exec_Seq.
  change ("(" +:+ n +:+ ")" +:+ rest) with (String "(" (n +:+ ")" +:+ rest)).
  rewrite exec_Plus_greedy.
  - rewrite exec_Seq. change (String "(" (n +:+ ")" +:+ rest)) with ("(" +:+ (n +:+ ")" +:+ rest)).
    rewrite exec_Lit_app, exec_tail1 by assumption. eauto.
  - assumption.
  - rewrite allBytes_notParen, Hname. reflexivity.
  - now intros c t [= <- _].
  - intros c t caps' Hc. rewrite exec_Seq. apply exec_Lit_reject.
    now apply notParen_not_open.
Qed.

Lemma Find_fsp_inv t m :
  FindStringSubmatch reFsp t = Some m → ∃ n, isFsp t n.
Proof.
  intros E. apply Find_sound in E as (rest & caps & Hm & _).
  unfold reFsp in Hm. inv_matches.
  match goal with
  | Hn : ?n ≠ "", Hd : allBytes digit ?n = true, Hr : allBytes notParen ?run = true |- _ =>
      exists n; repeat split; auto; exists run, rest; repeat split; auto
  end.
  rewrite allBytes_notParen in *.
  match goal with H : negb ?b = true |- ?b = false => now destruct b end.
Qed.

Lemma isFsp_hasParen t n : isFsp t n → hasParen t = true.
Proof.
  intros (_ & name & rest & _ & ->). unfold hasParen.
  rewrite ContainsRune_app. simpl. apply orb_true_r.
Qed.

Lemma isFloat_hasParen t p s : isFloat t p s → hasParen t = true.
Proof.
  intros (_ & _ & name & rest & _ & ->). unfold hasParen.
  rewrite ContainsRune_app. simpl. apply orb_true_r.
Qed.

(** On a run of digits [strconv.Atoi] is the value, capped at the
    largest [int]. *)
Lemma Atoi_digits n : digits n → strconv.Atoi n = asInt n.
Proof.
  intros [Hne Hd]. destruct n as [|c n]; [congruence|].
  unfold strconv.Atoi, asInt.
  assert (Hc : strconv.isDigit c = true) by (simpl in Hd; now apply andb_true_iff in Hd).
  destruct c as [[] [] [] [] [] [] [] []]; try discriminate Hc; now rewrite Hd.
Qed.

Lemma asInt_fits n : fitsInt n → asInt n = strconv.decimal n.
Proof. unfold fitsInt, asInt. lia. Qed.

Lemma isDecimal_start t p s : isDecimal t p s → HasPrefix t "decimal" = true.
Proof. intros (_ & _ & name & rest & -> & ->). apply HasPrefix_append. Qed.

End PatternReading.

(* ===================================================================== *)
(** * ModifyColumn.Unsafe                                                  *)
(* ===================================================================== *)

Section Guards.
Import strings regexp reading ModifyColumn.
Context `{UnicodeTables}.

(** A string with two prefixes: one of them is a prefix of the other. *)
Lemma HasPrefix_excl s p q :
  HasPrefix s p = true → HasPrefix p q = false → HasPrefix q p = false →
  HasPrefix s q = false.
Proof.
  intros Hp Hpq Hqp. destruct (HasPrefix s q) eqn:Hq; [|reflexivity].
  destruct (HasPrefix_clash s p q Hp Hq Hpq Hqp).
Qed.

(** The three guards in front of the family rules. *)
Lemma Unsafe_guards mc :
  CharSet (OldColumn mc) = CharSet (NewColumn mc) →
  oldTypeOf mc ≠ newTypeOf mc →
  isUnsigned (oldTypeOf mc) = isUnsigned (newTypeOf mc) →
  (CharSet (OldColumn mc) =? CharSet (NewColumn mc))%string = true
  ∧ (oldTypeOf mc =? newTypeOf mc)%string = false
  ∧ (Contains (oldTypeOf mc) "unsigned" && negb (Contains (newTypeOf mc) "unsigned")
     || negb (Contains (oldTypeOf mc) "unsigned") && Contains (newTypeOf mc) "unsigned") = false.
Proof.
  unfold isUnsigned. intros Hcs Hne Hsg. repeat split.
  - now apply String.eqb_eq.
  - now apply String.eqb_neq.
  - rewrite Hsg. now destruct (Contains (newTypeOf mc) "unsigned").
Qed.

(** In the enum/set branch [oldType[0:len(oldType)-1]] is in range. *)
Lemma enum_set_len oldType newType :
  bothSamePrefix oldType newType ["enum"; "set"] = true → (3 <= len oldType)%nat.
Proof.
  unfold bothSamePrefix. cbn [existsb]. rewrite orb_false_r, orb_true_iff, !andb_true_iff.
  intros [[Ho _] | [Ho _]]; apply HasPrefix_app in Ho as [t ->];
    unfold len; rewrite append_length; simpl; lia.
Qed.

End Guards.

Section FirstGuards.
Import strings regexp reading ModifyColumn.
Context `{UnicodeTables}.

(** C2.  For every column C, the change from C to C itself (same type
    string, same character set) is not unsafe, wherever the column is
    placed. *)
Theorem Unsafe_same_column (C : Column) (first : bool) (after : option Column) :
  Unsafe (ModifyColumn.mk C C first after) = false.
Proof.
  unfold Unsafe, oldTypeOf, newTypeOf. cbn [OldColumn NewColumn].
  now rewrite !String.eqb_refl.
Qed.

(** C6.  Within one character set, a change in which exactly one of the
    two (lower-cased) type strings carries [unsigned] is unsafe, whatever
    else changes. *)
Theorem Unsafe_signedness_flip mc :
  CharSet (OldColumn mc) = CharSet (NewColumn mc) →
  isUnsigned (oldTypeOf mc) ≠ isUnsigned (newTypeOf mc) →
  Unsafe mc = true.
Proof.
  unfold isUnsigned. intros Hcs Hsg. unfold Unsafe.
  apply String.eqb_eq in Hcs. rewrite Hcs. cbn [negb].
  destruct (String.eqb_spec (oldTypeOf mc) (newTypeOf mc)) as [E|_].
  - rewrite E in Hsg. congruence.
  - destruct (Contains (oldTypeOf mc) "unsigned"), (Contains (newTypeOf mc) "unsigned");
      try reflexivity; congruence.
Qed.

(** What the [enum]/[set] rule computes: within one character set, when
    both type strings start with [enum] (or both with [set]) and
    [unsigned] occurs in both or in neither, the answer is safe exactly
    when the old string without its last byte is a prefix of the new
    one. *)
Lemma Unsafe_enum_set_prefix mc :
  CharSet (OldColumn mc) = CharSet (NewColumn mc) →
  isUnsigned (oldTypeOf mc) = isUnsigned (newTypeOf mc) →
  bothStart "enum" (oldTypeOf mc) (newTypeOf mc)
  ∨ bothStart "set" (oldTypeOf mc) (newTypeOf mc) →
  Unsafe mc = false ↔
  ∃ body closing appended,
    oldTypeOf mc = body +:+ String closing "" ∧ newTypeOf mc = body +:+ appended.
Proof.
  intros Hcs Hsg Hfam.
  assert (Hne : oldTypeOf mc ≠ "").
  { destruct Hfam as [[Ho _] | [Ho _]]; apply HasPrefix_app in Ho as [t ->]; discriminate. }
  destruct (string_snoc _ Hne) as (body & c & Hold).
  destruct (String.eqb_spec (oldTypeOf mc) (newTypeOf mc)) as [E|Hdiff].
  - split.
    + intros _. exists body, c, (String c ""). now rewrite <- E.
    + intros _. unfold Unsafe. apply String.eqb_eq in Hcs, E. now rewrite Hcs, E.
  - destruct (Unsafe_guards mc Hcs Hdiff Hsg) as (G1 & G2 & G3).
    unfold Unsafe. rewrite G1, G2, G3. cbn [negb].
    assert (Hb : bothSamePrefix (oldTypeOf mc) (newTypeOf mc) ["enum"; "set"] = true).
    { unfold bothSamePrefix. cbn [existsb].
      destruct Hfam as [[-> ->] | [-> ->]]; cbn [andb orb]; auto using orb_true_r. }
    rewrite Hb, Hold, slice_to_init, negb_false_iff, HasPrefix_app.
    split.
    + intros [t Ht]. eauto.
    + intros (body' & c' & t & E1 & E2). apply append_snoc_inj in E1 as [-> _]. eauto.
Qed.

End FirstGuards.

Section FamilyRules.
Import strings regexp reading ModifyColumn.
Context `{UnicodeTables}.

(** Rewrites to [false] every test of [s] against a family name that
    cannot share a string with the prefix [p] of hypothesis [Hp]. *)
Ltac other_families Hp :=
  repeat match goal with
  | |- context [HasPrefix ?s ?q] =>
      match type of Hp with
      | HasPrefix s ?p = true =>
          rewrite (HasPrefix_excl s p q Hp eq_refl eq_refl)
      end
  end; cbn [andb orb].

Ltac enter mc Hcs Hsg Hdiff :=
  let G1 := fresh in let G2 := fresh in let G3 := fresh in
  destruct (Unsafe_guards mc Hcs Hdiff Hsg) as (G1 & G2 & G3);
  unfold Unsafe; rewrite G1, G2, G3; cbn [negb];
  unfold bothSamePrefix; cbn [existsb].

(** The [decimal] rule as the code computes it. *)
Lemma Unsafe_decimal_branch mc :
  CharSet (OldColumn mc) = CharSet (NewColumn mc) →
  isUnsigned (oldTypeOf mc) = isUnsigned (newTypeOf mc) →
  oldTypeOf mc ≠ newTypeOf mc →
  bothStart "decimal" (oldTypeOf mc) (newTypeOf mc) →
  Unsafe mc =
    match FindStringSubmatch reDecimal (oldTypeOf mc),
          FindStringSubmatch reDecimal (newTypeOf mc) with
    | Some oldMatches, Some newMatches =>
        (strconv.Atoi (at_ newMatches 1) <? strconv.Atoi (at_ oldMatches 1))
        || (strconv.Atoi (at_ newMatches 2) <? strconv.Atoi (at_ oldMatches 2))
    | _, _ => true
    end.
Proof.
  intros Hcs Hsg Hdiff [Ho Hn]. enter mc Hcs Hsg Hdiff. other_families Ho.
  now rewrite Ho, Hn.
Qed.

(** The [decimal] rule on the numbers as the code reads them: each is
    read as an [int], a value above the largest [int] counting as the
    largest [int]; when one of the strings does not parse, the change is
    unsafe. *)
Lemma Unsafe_decimal_as_int mc :
  CharSet (OldColumn mc) = CharSet (NewColumn mc) →
  isUnsigned (oldTypeOf mc) = isUnsigned (newTypeOf mc) →
  oldTypeOf mc ≠ newTypeOf mc →
  bothStart "decimal" (oldTypeOf mc) (newTypeOf mc) →
  (∀ op os np ns,
      isDecimal (oldTypeOf mc) op os → isDecimal (newTypeOf mc) np ns →
      Unsafe mc = (asInt np <? asInt op) || (asInt ns <? asInt os))
  ∧ ((¬ ∃ p s, isDecimal (oldTypeOf mc) p s) ∨ (¬ ∃ p s, isDecimal (newTypeOf mc) p s) →
     Unsafe mc = true).
Proof.
  intros Hcs Hsg Hdiff Hfam.
  rewrite (Unsafe_decimal_branch mc Hcs Hsg Hdiff Hfam). split.
  - intros op os np ns Hop Hnp.
    destruct (Find_decimal _ _ _ Hop) as [wo ->], (Find_decimal _ _ _ Hnp) as [wn ->].
    destruct Hop as (? & ? & _), Hnp as (? & ? & _).
    cbn [at_ nth]. now rewrite !Atoi_digits.
  - intros [Hf | Hf].
    + destruct (FindStringSubmatch reDecimal (oldTypeOf mc)) eqn:Eo; [|reflexivity].
      destruct Hf. eapply Find_decimal_inv, Eo.
    + destruct (FindStringSubmatch reDecimal (newTypeOf mc)) eqn:En;
        [|now destruct (FindStringSubmatch reDecimal (oldTypeOf mc))].
      destruct Hf. eapply Find_decimal_inv, En.
Qed.

(** C4.  Within one character set and with equal signedness, for two
    distinct type strings that both start with [decimal]: when both parse
    as [decimal(p,s)], with numbers that fit an [int] (as every precision
    and scale of a column type does), the change is unsafe if the new
    precision is less than the old one or the new scale is less than the
    old one, and safe if both are greater or equal; when one of the two
    strings does not parse as [decimal(p,s)], the change is unsafe. *)
Theorem Unsafe_decimal mc :
  CharSet (OldColumn mc) = CharSet (NewColumn mc) →
  isUnsigned (oldTypeOf mc) = isUnsigned (newTypeOf mc) →
  oldTypeOf mc ≠ newTypeOf mc →
  bothStart "decimal" (oldTypeOf mc) (newTypeOf mc) →
  (∀ op os np ns,
      isDecimal (oldTypeOf mc) op os → isDecimal (newTypeOf mc) np ns →
      fitsInt op → fitsInt os → fitsInt np → fitsInt ns →
      (strconv.decimal np < strconv.decimal op ∨ strconv.decimal ns < strconv.decimal os →
       Unsafe mc = true)
      ∧ (strconv.decimal op <= strconv.decimal np ∧ strconv.decimal os <= strconv.decimal ns →
         Unsafe mc = false))
  ∧ ((¬ ∃ p s, isDecimal (oldTypeOf mc) p s) ∨ (¬ ∃ p s, isDecimal (newTypeOf mc) p s) →
     Unsafe mc = true).
Proof.
  intros Hcs Hsg Hdiff Hfam.
  destruct (Unsafe_decimal_as_int mc Hcs Hsg Hdiff Hfam) as [Hnum Hfail].
  split; [|exact Hfail].
  intros op os np ns Hop Hnp Fop Fos Fnp Fns.
  rewrite (Hnum op os np ns Hop Hnp), !asInt_fits by assumption. split.
  - intros [Hlt | Hlt]; apply orb_true_iff; [left | right]; now apply Z.ltb_lt.
  - intros [Hp Hs]. apply orb_false_iff. split; now apply Z.ltb_ge.
Qed.

(** X1.  With precisions and scales that fit an [int], the [decimal]
    rule compares the numbers themselves: unsafe exactly when the new
    precision or the new scale is the smaller one. *)
Theorem Unsafe_decimal_in_range mc op os np ns :
  CharSet (OldColumn mc) = CharSet (NewColumn mc) →
  isUnsigned (oldTypeOf mc) = isUnsigned (newTypeOf mc) →
  oldTypeOf mc ≠ newTypeOf mc →
  isDecimal (oldTypeOf mc) op os → isDecimal (newTypeOf mc) np ns →
  fitsInt op → fitsInt os → fitsInt np → fitsInt ns →
  Unsafe mc = (strconv.decimal np <? strconv.decimal op)
              || (strconv.decimal ns <? strconv.decimal os).
Proof.
  intros Hcs Hsg Hdiff Hop Hnp Fop Fos Fnp Fns.
  rewrite (Unsafe_decimal_branch mc Hcs Hsg Hdiff)
    by (split; [apply (isDecimal_start _ _ _ Hop) | apply (isDecimal_start _ _ _ Hnp)]).
  destruct (Find_decimal _ _ _ Hop) as [wo ->], (Find_decimal _ _ _ Hnp) as [wn ->].
  destruct Hop as (? & ? & _), Hnp as (? & ? & _).
  cbn [at_ nth]. now rewrite !Atoi_digits, !asInt_fits.
Qed.

(** The [varchar]/[varbinary] rule as the code computes it. *)
Lemma Unsafe_var_branch mc :
  CharSet (OldColumn mc) = CharSet (NewColumn mc) →
  isUnsigned (oldTypeOf mc) = isUnsigned (newTypeOf mc) →
  oldTypeOf mc ≠ newTypeOf mc →
  bothStart "varchar" (oldTypeOf mc) (newTypeOf mc)
  ∨ bothStart "varbinary" (oldTypeOf mc) (newTypeOf mc) →
  Unsafe mc =
    match FindStringSubmatch reVar (oldTypeOf mc),
          FindStringSubmatch reVar (newTypeOf mc) with
    | Some oldMatches, Some newMatches =>
        strconv.Atoi (at_ newMatches 1) <? strconv.Atoi (at_ oldMatches 1)
    | _, _ => true
    end.
Proof.
  intros Hcs Hsg Hdiff Hfam. enter mc Hcs Hsg Hdiff.
  destruct Hfam as [[Ho Hn] | [Ho Hn]]; other_families Ho; rewrite Ho, Hn;
    cbn [andb orb]; reflexivity.
Qed.

(** The [varchar]/[varbinary] rule on the lengths as the code reads
    them: each is read as an [int], a value above the largest [int]
    counting as the largest [int]; when one of the strings does not parse,
    the change is unsafe. *)
Lemma Unsafe_varchar_as_int mc :
  CharSet (OldColumn mc) = CharSet (NewColumn mc) →
  isUnsigned (oldTypeOf mc) = isUnsigned (newTypeOf mc) →
  oldTypeOf mc ≠ newTypeOf mc →
  bothStart "varchar" (oldTypeOf mc) (newTypeOf mc)
  ∨ bothStart "varbinary" (oldTypeOf mc) (newTypeOf mc) →
  (∀ o n,
      isVar (oldTypeOf mc) o → isVar (newTypeOf mc) n →
      Unsafe mc = (asInt n <? asInt o))
  ∧ ((¬ ∃ n, isVar (oldTypeOf mc) n) ∨ (¬ ∃ n, isVar (newTypeOf mc) n) →
     Unsafe mc = true).
Proof.
  intros Hcs Hsg Hdiff Hfam.
  rewrite (Unsafe_var_branch mc Hcs Hsg Hdiff Hfam). split.
  - intros o n Ho Hn.
    destruct (Find_var _ _ Ho) as [wo ->], (Find_var _ _ Hn) as [wn ->].
    destruct Ho as (? & _), Hn as (? & _).
    cbn [at_ nth]. now rewrite !Atoi_digits.
  - intros [Hf | Hf].
    + destruct (FindStringSubmatch reVar (oldTypeOf mc)) eqn:Eo; [|reflexivity].
      destruct Hf. eapply Find_var_inv, Eo.
    + destruct (FindStringSubmatch reVar (newTypeOf mc)) eqn:En;
        [|now destruct (FindStringSubmatch reVar (oldTypeOf mc))].
      destruct Hf. eapply Find_var_inv, En.
Qed.

(** C5.  Within one character set and with equal signedness, for two
    distinct type strings that both start with [varchar] (or both with
    [varbinary]): when both parse as [name(n)], with lengths that fit an
    [int] (as every declared length of a column type does), the change is
    unsafe exactly when the new length is strictly less than the old one;
    when one of the two strings does not parse as [name(n)], the change is
    unsafe. *)
Theorem Unsafe_varchar mc :
  CharSet (OldColumn mc) = CharSet (NewColumn mc) →
  isUnsigned (oldTypeOf mc) = isUnsigned (newTypeOf mc) →
  oldTypeOf mc ≠ newTypeOf mc →
  bothStart "varchar" (oldTypeOf mc) (newTypeOf mc)
  ∨ bothStart "varbinary" (oldTypeOf mc) (newTypeOf mc) →
  (∀ o n,
      isVar (oldTypeOf mc) o → isVar (newTypeOf mc) n →
      fitsInt o → fitsInt n →
      (Unsafe mc = true ↔ strconv.decimal n < strconv.decimal o))
  ∧ ((¬ ∃ n, isVar (oldTypeOf mc) n) ∨ (¬ ∃ n, isVar (newTypeOf mc) n) →
     Unsafe mc = true).
Proof.
  intros Hcs Hsg Hdiff Hfam.
  destruct (Unsafe_varchar_as_int mc Hcs Hsg Hdiff Hfam) as [Hnum Hfail].
  split; [|exact Hfail].
  intros o n Ho Hn Fo Fn.
  rewrite (Hnum o n Ho Hn), !asInt_fits by assumption. apply Z.ltb_lt.
Qed.

(** X2.  With lengths that fit an [int], the [varchar]/[varbinary] rule
    compares the lengths themselves: unsafe exactly when the new length is
    the smaller one. *)
Theorem Unsafe_varchar_in_range mc o n :
  CharSet (OldColumn mc) = CharSet (NewColumn mc) →
  isUnsigned (oldTypeOf mc) = isUnsigned (newTypeOf mc) →
  oldTypeOf mc ≠ newTypeOf mc →
  bothStart "varchar" (oldTypeOf mc) (newTypeOf mc)
  ∨ bothStart "varbinary" (oldTypeOf mc) (newTypeOf mc) →
  isVar (oldTypeOf mc) o → isVar (newTypeOf mc) n →
  fitsInt o → fitsInt n →
  Unsafe mc = (strconv.decimal n <? strconv.decimal o).
Proof.
  intros Hcs Hsg Hdiff Hfam Ho Hn Fo Fn.
  rewrite (Unsafe_var_branch mc Hcs Hsg Hdiff Hfam).
  destruct (Find_var _ _ Ho) as [wo ->], (Find_var _ _ Hn) as [wn ->].
  destruct Ho as (? & _), Hn as (? & _).
  cbn [at_ nth]. now rewrite !Atoi_digits, !asInt_fits.
Qed.

(** The [float]/[double] rule as the code computes it. *)
Lemma Unsafe_float_branch mc :
  CharSet (OldColumn mc) = CharSet (NewColumn mc) →
  isUnsigned (oldTypeOf mc) = isUnsigned (newTypeOf mc) →
  oldTypeOf mc ≠ newTypeOf mc →
  bothStart "float" (oldTypeOf mc) (newTypeOf mc)
  ∨ bothStart "double" (oldTypeOf mc) (newTypeOf mc)
  ∨ (HasPrefix (oldTypeOf mc) "float" = true ∧ HasPrefix (newTypeOf mc) "double" = true) →
  Unsafe mc =
    if negb (hasParen (newTypeOf mc)) then false
    else if negb (hasParen (oldTypeOf mc)) then true
    else
      match FindStringSubmatch reFloat (oldTypeOf mc),
            FindStringSubmatch reFloat (newTypeOf mc) with
      | Some oldMatches, Some newMatches =>
          (strconv.Atoi (at_ newMatches 1) <? strconv.Atoi (at_ oldMatches 1))
          || (strconv.Atoi (at_ newMatches 2) <? strconv.Atoi (at_ oldMatches 2))
      | _, _ => true
      end.
Proof.
  intros Hcs Hsg Hdiff Hfam. enter mc Hcs Hsg Hdiff.
  destruct Hfam as [[Ho Hn] | [[Ho Hn] | [Ho Hn]]]; other_families Ho;
    rewrite ?Ho, ?Hn; cbn [andb orb]; rewrite ?orb_true_r; reflexivity.
Qed.

(** From [double] to [float]: no rule applies and the default answers. *)
Lemma Unsafe_double_to_float mc :
  HasPrefix (oldTypeOf mc) "double" = true → HasPrefix (newTypeOf mc) "float" = true →
  Unsafe mc = true.
Proof.
  intros Ho Hn. unfold Unsafe.
  destruct (CharSet (OldColumn mc) =? CharSet (NewColumn mc))%string; [|reflexivity].
  cbn [negb].
  destruct (String.eqb_spec (oldTypeOf mc) (newTypeOf mc)) as [E|_].
  { rewrite E in Ho. now rewrite (HasPrefix_excl _ _ "double" Hn eq_refl eq_refl) in Ho. }
  match goal with |- (if ?b then true else _) = true => destruct b; [reflexivity|] end.
  unfold bothSamePrefix; cbn [existsb]. other_families Ho.
  rewrite (HasPrefix_excl _ _ "double" Hn eq_refl eq_refl), andb_false_r. cbn [andb orb].
  unfold isSafeSizeChange, intRank, blobRank, textRank. cbn [ranks].
  other_families Ho. reflexivity.
Qed.

(** The [float]/[double] rule on the numbers as the code reads them:
    each is read as an [int], a value above the largest [int] counting as
    the largest [int]. *)
Lemma Unsafe_float_double_as_int mc :
  (HasPrefix (oldTypeOf mc) "double" = true → HasPrefix (newTypeOf mc) "float" = true →
   Unsafe mc = true)
  ∧ (CharSet (OldColumn mc) = CharSet (NewColumn mc) →
     isUnsigned (oldTypeOf mc) = isUnsigned (newTypeOf mc) →
     oldTypeOf mc ≠ newTypeOf mc →
     bothStart "float" (oldTypeOf mc) (newTypeOf mc)
     ∨ bothStart "double" (oldTypeOf mc) (newTypeOf mc)
     ∨ (HasPrefix (oldTypeOf mc) "float" = true ∧ HasPrefix (newTypeOf mc) "double" = true) →
     (hasParen (newTypeOf mc) = false → Unsafe mc = false)
     ∧ (hasParen (newTypeOf mc) = true → hasParen (oldTypeOf mc) = false → Unsafe mc = true)
     ∧ (∀ op os np ns,
          isFloat (oldTypeOf mc) op os → isFloat (newTypeOf mc) np ns →
          Unsafe mc = (asInt np <? asInt op) || (asInt ns <? asInt os))).
Proof.
  split; [apply Unsafe_double_to_float|].
  intros Hcs Hsg Hdiff Hfam.
  rewrite (Unsafe_float_branch mc Hcs Hsg Hdiff Hfam). repeat split.
  - now intros ->.
  - now intros -> ->.
  - intros op os np ns Hop Hnp.
    rewrite (isFloat_hasParen _ _ _ Hop), (isFloat_hasParen _ _ _ Hnp). cbn [negb].
    destruct (Find_float _ _ _ Hop) as [wo ->], (Find_float _ _ _ Hnp) as [wn ->].
    destruct Hop as (? & ? & _), Hnp as (? & ? & _).
    cbn [at_ nth]. now rewrite !Atoi_digits.
Qed.

(** C7.  A change from a type string starting with [double] to one
    starting with [float] is unsafe.  Within one character set and with
    equal signedness, for two distinct type strings that both start with
    [float], or both with [double], or the old with [float] and the new
    with [double]: the change is safe when the new string has no
    parenthetical; unsafe when the new string has one and the old has
    none; otherwise, for the precisions and scales of the two strings
    [name(p,s)], numbers that fit an [int] (as every precision and scale
    of a column type does), it is unsafe exactly when the new precision
    is less than the old one or the new scale is less than the old one. *)
Theorem Unsafe_float_double mc :
  (HasPrefix (oldTypeOf mc) "double" = true → HasPrefix (newTypeOf mc) "float" = true →
   Unsafe mc = true)
  ∧ (CharSet (OldColumn mc) = CharSet (NewColumn mc) →
     isUnsigned (oldTypeOf mc) = isUnsigned (newTypeOf mc) →
     oldTypeOf mc ≠ newTypeOf mc →
     bothStart "float" (oldTypeOf mc) (newTypeOf mc)
     ∨ bothStart "double" (oldTypeOf mc) (newTypeOf mc)
     ∨ (HasPrefix (oldTypeOf mc) "float" = true ∧ HasPrefix (newTypeOf mc) "double" = true) →
     (hasParen (newTypeOf mc) = false → Unsafe mc = false)
     ∧ (hasParen (newTypeOf mc) = true → hasParen (oldTypeOf mc) = false → Unsafe mc = true)
     ∧ (∀ op os np ns,
          isFloat (oldTypeOf mc) op os → isFloat (newTypeOf mc) np ns →
          fitsInt op → fitsInt os → fitsInt np → fitsInt ns →
          (Unsafe mc = true ↔
           strconv.decimal np < strconv.decimal op ∨ strconv.decimal ns < strconv.decimal os))).
Proof.
  destruct (Unsafe_float_double_as_int mc) as [Hdf Hrule].
  split; [exact Hdf|].
  intros Hcs Hsg Hdiff Hfam.
  destruct (Hrule Hcs Hsg Hdiff Hfam) as (Hnone & Hadded & Hnum).
  split; [exact Hnone|]. split; [exact Hadded|].
  intros op os np ns Hop Hnp Fop Fos Fnp Fns.
  rewrite (Hnum op os np ns Hop Hnp), !asInt_fits by assumption.
  rewrite orb_true_iff, !Z.ltb_lt. reflexivity.
Qed.

(** X3.  With precisions and scales that fit an [int], the
    [float]/[double] rule compares the numbers themselves. *)
Theorem Unsafe_float_double_in_range mc op os np ns :
  CharSet (OldColumn mc) = CharSet (NewColumn mc) →
  isUnsigned (oldTypeOf mc) = isUnsigned (newTypeOf mc) →
  oldTypeOf mc ≠ newTypeOf mc →
  bothStart "float" (oldTypeOf mc) (newTypeOf mc)
  ∨ bothStart "double" (oldTypeOf mc) (newTypeOf mc)
  ∨ (HasPrefix (oldTypeOf mc) "float" = true ∧ HasPrefix (newTypeOf mc) "double" = true) →
  isFloat (oldTypeOf mc) op os → isFloat (newTypeOf mc) np ns →
  fitsInt op → fitsInt os → fitsInt np → fitsInt ns →
  Unsafe mc = (strconv.decimal np <? strconv.decimal op)
              || (strconv.decimal ns <? strconv.decimal os).
Proof.
  intros Hcs Hsg Hdiff Hfam Hop Hnp Fop Fos Fnp Fns.
  rewrite (Unsafe_float_branch mc Hcs Hsg Hdiff Hfam).
  rewrite (isFloat_hasParen _ _ _ Hop), (isFloat_hasParen _ _ _ Hnp). cbn [negb].
  destruct (Find_float _ _ _ Hop) as [wo ->], (Find_float _ _ _ Hnp) as [wn ->].
  destruct Hop as (? & ? & _), Hnp as (? & ? & _).
  cbn [at_ nth]. now rewrite !Atoi_digits, !asInt_fits.
Qed.

(** X4.  Where both strings of the [float]/[double] family have a
    parenthetical and one of them does not parse as [name(p,s)], the change
    is unsafe. *)
Theorem Unsafe_float_double_unparsed mc :
  CharSet (OldColumn mc) = CharSet (NewColumn mc) →
  isUnsigned (oldTypeOf mc) = isUnsigned (newTypeOf mc) →
  oldTypeOf mc ≠ newTypeOf mc →
  bothStart "float" (oldTypeOf mc) (newTypeOf mc)
  ∨ bothStart "double" (oldTypeOf mc) (newTypeOf mc)
  ∨ (HasPrefix (oldTypeOf mc) "float" = true ∧ HasPrefix (newTypeOf mc) "double" = true) →
  hasParen (oldTypeOf mc) = true → hasParen (newTypeOf mc) = true →
  (¬ ∃ p s, isFloat (oldTypeOf mc) p s) ∨ (¬ ∃ p s, isFloat (newTypeOf mc) p s) →
  Unsafe mc = true.
Proof.
  intros Hcs Hsg Hdiff Hfam Po Pn Hf.
  rewrite (Unsafe_float_branch mc Hcs Hsg Hdiff Hfam), Po, Pn. cbn [negb].
  destruct Hf as [Hf | Hf].
  - destruct (FindStringSubmatch reFloat (oldTypeOf mc)) eqn:Eo; [|reflexivity].
    destruct Hf. eapply Find_float_inv, Eo.
  - destruct (FindStringSubmatch reFloat (newTypeOf mc)) eqn:En;
      [|now destruct (FindStringSubmatch reFloat (oldTypeOf mc))].
    destruct Hf. eapply Find_float_inv, En.
Qed.

(** The rule for [time], [timestamp] and [datetime], reached through the
    shared prefix [time]. *)
Lemma Unsafe_time_prefix mc :
  CharSet (OldColumn mc) = CharSet (NewColumn mc) →
  isUnsigned (oldTypeOf mc) = isUnsigned (newTypeOf mc) →
  oldTypeOf mc ≠ newTypeOf mc →
  bothStart "time" (oldTypeOf mc) (newTypeOf mc) →
  Unsafe mc =
    if negb (hasParen (oldTypeOf mc)) then false
    else if negb (hasParen (newTypeOf mc)) then true
    else
      match FindStringSubmatch reFsp (oldTypeOf mc),
            FindStringSubmatch reFsp (newTypeOf mc) with
      | Some oldMatches, Some newMatches =>
          strconv.Atoi (at_ newMatches 1) <? strconv.Atoi (at_ oldMatches 1)
      | _, _ => true
      end.
Proof.
  intros Hcs Hsg Hdiff [Ho Hn]. enter mc Hcs Hsg Hdiff. other_families Ho.
  now rewrite Ho, Hn.
Qed.

Lemma Contains_first s c sub : ContainsRune s c = false → Contains s (String c sub) = false.
Proof.
  induction s as [|a s IH]; [reflexivity|]. cbn [ContainsRune Contains HasPrefix].
  intros E. apply orb_false_iff in E as [-> E]. now rewrite (IH E).
Qed.

Lemma digits_no_rune n c :
  allBytes strconv.isDigit n = true → strconv.isDigit c = false → ContainsRune n c = false.
Proof.
  intros Hn Hc. induction n as [|a n IH]; [reflexivity|]. cbn [allBytes ContainsRune] in *.
  apply andb_true_iff in Hn as [Ha Hn]. rewrite (IH Hn), orb_false_r.
  destruct (Ascii.eqb_spec a c) as [->|]; [congruence | reflexivity].
Qed.

Lemma isTimeType_facts name t :
  isTimeType name t →
  HasPrefix t name = true
  ∧ (ContainsRune name "u" = false → isUnsigned t = false).
Proof.
  intros [-> | (n & [_ Hn] & ->)]; split.
  - rewrite <- (append_nil_r name) at 1. apply HasPrefix_append.
  - intros Hu. now apply Contains_first.
  - apply HasPrefix_append.
  - intros Hu. apply Contains_first. rewrite !ContainsRune_app, Hu.
    now rewrite (digits_no_rune n "u" Hn eq_refl).
Qed.

Lemma time_is_not_timestamp t1 t2 :
  isTimeType "timestamp" t1 → isTimeType "time" t2 → t1 ≠ t2.
Proof.
  intros [-> | (n1 & _ & ->)] [-> | (n2 & _ & ->)]; discriminate.
Qed.

(** C10.  Within one character set, a change between a [timestamp]
    column and a [time] column (either way, each with or without a
    precision) falls under the rule for fractional-second precision, not
    under the default: it is safe when the old type has no parenthetical
    (so [timestamp] to [time(6)] and [time] to [timestamp(6)] are safe),
    unsafe when only the old type has one, and otherwise decided by
    comparing the two precisions as [strconv.Atoi] reads them. *)
Theorem Unsafe_time_timestamp mc :
  CharSet (OldColumn mc) = CharSet (NewColumn mc) →
  (isTimeType "timestamp" (oldTypeOf mc) ∧ isTimeType "time" (newTypeOf mc))
  ∨ (isTimeType "time" (oldTypeOf mc) ∧ isTimeType "timestamp" (newTypeOf mc)) →
  (hasParen (oldTypeOf mc) = false → Unsafe mc = false)
  ∧ (hasParen (oldTypeOf mc) = true → hasParen (newTypeOf mc) = false → Unsafe mc = true)
  ∧ (∀ o n, isFsp (oldTypeOf mc) o → isFsp (newTypeOf mc) n →
            Unsafe mc = (asInt n <? asInt o)).
Proof.
  intros Hcs Hty.
  assert (E : Unsafe mc =
    if negb (hasParen (oldTypeOf mc)) then false
    else if negb (hasParen (newTypeOf mc)) then true
    else
      match FindStringSubmatch reFsp (oldTypeOf mc),
            FindStringSubmatch reFsp (newTypeOf mc) with
      | Some oldMatches, Some newMatches =>
          strconv.Atoi (at_ newMatches 1) <? strconv.Atoi (at_ oldMatches 1)
      | _, _ => true
      end).
  { destruct Hty as [[Ho Hn] | [Ho Hn]];
      destruct (isTimeType_facts _ _ Ho) as [Po Uo], (isTimeType_facts _ _ Hn) as [Pn Un];
      apply Unsafe_time_prefix; auto.
    - now rewrite Uo, Un.
    - now apply time_is_not_timestamp.
    - split; [apply (HasPrefix_trans _ _ _ Po) | ]; auto.
    - now rewrite Uo, Un.
    - intros Heq. now apply (time_is_not_timestamp _ _ Hn Ho).
    - split; [| apply (HasPrefix_trans _ _ _ Pn)]; auto. }
  rewrite E. repeat split.
  - now intros ->.
  - now intros -> ->.
  - intros o n Ho Hn.
    rewrite (isFsp_hasParen _ _ Ho), (isFsp_hasParen _ _ Hn). cbn [negb].
    destruct (Find_fsp _ _ Ho) as [wo ->], (Find_fsp _ _ Hn) as [wn ->].
    destruct Ho as (? & _), Hn as (? & _).
    cbn [at_ nth]. now rewrite !Atoi_digits.
Qed.

End FamilyRules.

(* ===================================================================== *)
(** * Conditional rendering                                                *)
(* ===================================================================== *)

Section Rendering.
Import strings.

(** C8.  ChangeAutoIncrement renders the empty string under the Ignore
    policy; under OnlyIfIncreased exactly when the new next-value is not
    greater than the old one; under OnlyIfAlreadySet exactly when the old
    next-value is at most 1; and whenever it renders anything, it renders
    the new next-value. *)
Theorem ChangeAutoIncrement_policy (cai : ChangeAutoIncrement.t) (mods : StatementModifiers) :
  let old := ChangeAutoIncrement.OldNextAutoIncrement cai in
  let new := ChangeAutoIncrement.NewNextAutoIncrement cai in
  let out := ChangeAutoIncrement.Clause cai mods in
  (NextAutoInc mods = NextAutoIncIgnore → out = "")
  ∧ (NextAutoInc mods = NextAutoIncIfIncreased → (out = "" ↔ ¬ (old < new)%N))
  ∧ (NextAutoInc mods = NextAutoIncIfAlready → (out = "" ↔ (old <= 1)%N))
  ∧ (NextAutoInc mods = NextAutoIncAlways → out ≠ "")
  ∧ (out ≠ "" → out = "AUTO_INCREMENT = " +:+ fmt.d new).
Proof.
  cbv zeta. unfold ChangeAutoIncrement.Clause.
  destruct cai as [old new]. cbn [ChangeAutoIncrement.OldNextAutoIncrement
    ChangeAutoIncrement.NewNextAutoIncrement].
  destruct (NextAutoInc mods);
    repeat match goal with
    | |- context [bool_decide (?a = ?b)] =>
        first [ rewrite (bool_decide_eq_true_2 (a = b)) by reflexivity
              | rewrite (bool_decide_eq_false_2 (a = b)) by discriminate ]
    end;
    cbn [andb].
  - repeat split; try discriminate; congruence.
  - destruct (N.leb_spec new old) as [Hle|Hlt];
      repeat split; try discriminate; try congruence; try (intros; lia).
  - destruct (N.leb_spec old 1) as [Hle|Hlt];
      repeat split; try discriminate; try congruence; try (intros; lia).
  - repeat split; try discriminate; congruence.
Qed.

(** C9.  An AddIndex or DropIndex marked reorder-only renders the empty
    string when strict index ordering is off and its DDL text, which is
    not empty, when it is on; the same holds for an AddForeignKey or
    DropForeignKey marked rename-only and strict foreign-key naming. *)
Theorem reorder_rename_only_rendering `{StructuralModel}
    (idx : Index) (fk : ForeignKey) (mods : StatementModifiers) :
  let ai := AddIndex.Clause (AddIndex.mk idx true) mods in
  let di := DropIndex.Clause (DropIndex.mk idx true) mods in
  let afk := AddForeignKey.Clause (AddForeignKey.mk fk true) mods in
  let dfk := DropForeignKey.Clause (DropForeignKey.mk fk true) mods in
  (StrictIndexOrder mods = false → ai = "" ∧ di = "")
  ∧ (StrictIndexOrder mods = true →
     ai = "ADD " +:+ Index_Definition idx
     ∧ di = (if Index_PrimaryKey idx then "DROP PRIMARY KEY"
             else "DROP KEY " +:+ EscapeIdentifier (Index_Name idx))
     ∧ ai ≠ "" ∧ di ≠ "")
  ∧ (StrictForeignKeyNaming mods = false → afk = "" ∧ dfk = "")
  ∧ (StrictForeignKeyNaming mods = true →
     afk = "ADD " +:+ ForeignKey_Definition fk
     ∧ dfk = "DROP FOREIGN KEY " +:+ EscapeIdentifier (ForeignKey_Name fk)
     ∧ afk ≠ "" ∧ dfk ≠ "").
Proof.
  cbv zeta.
  unfold AddIndex.Clause, DropIndex.Clause, AddForeignKey.Clause, DropForeignKey.Clause.
  cbn [AddIndex.reorderOnly AddIndex.index DropIndex.reorderOnly DropIndex.index
       AddForeignKey.renameOnly AddForeignKey.foreignKey
       DropForeignKey.renameOnly DropForeignKey.foreignKey].
  split; [|split; [|split]]; intros E; rewrite E; cbn [negb andb];
    repeat split; try discriminate.
  destruct (Index_PrimaryKey idx); discriminate.
Qed.

Import ChangeCreateOptions.

Lemma fold_left_emit {A} (f : A → list string) (l : list A) (acc : list string) :
  fold_left (fun acc x => acc ++ f x)%list l acc = (acc ++ flat_map f l)%list.
Proof.
  revert acc; induction l as [|x l IH]; intros acc; simpl.
  - now rewrite app_nil_r.
  - now rewrite IH, app_assoc.
Qed.

Lemma subclausesAlong_groups oldOpts newOpts order1 order2 :
  subclausesAlong oldOpts newOpts order1 order2
  = (flat_map (changedOrGone newOpts) order1 ++ flat_map (added oldOpts) order2)%list.
Proof. unfold subclausesAlong. now rewrite !fold_left_emit. Qed.

Lemma short_perm_eq (l1 l2 : list string) :
  l1 ≡ₚ l2 → (length l1 <= 1)%nat → l1 = l2.
Proof.
  intros Hp Hl. destruct l1 as [|a [|b l1]]; simpl in Hl; try lia.
  - now apply Permutation_nil in Hp.
  - now apply Permutation_length_1_inv in Hp.
Qed.

Lemma Clause_may_return cco mods order1 order2 out :
  rangeOrder (splitOpts (OldCreateOptions cco)) order1 →
  rangeOrder (splitOpts (NewCreateOptions cco)) order2 →
  out = Join (subclausesAlong (splitOpts (OldCreateOptions cco))
                              (splitOpts (NewCreateOptions cco)) order1 order2) " " →
  Clause cco mods out.
Proof. intros H1 H2 ->. now apply Clause_returns. Qed.

(** Visiting both maps in key order is one way a call can go. *)
Lemma Clause_in_key_order cco mods :
  Clause cco mods
    (Join (subclausesAlong (splitOpts (OldCreateOptions cco)) (splitOpts (NewCreateOptions cco))
             (map_to_list (splitOpts (OldCreateOptions cco)))
             (map_to_list (splitOpts (NewCreateOptions cco)))) " ").
Proof. apply Clause_returns; unfold rangeOrder; reflexivity. Qed.

(** Every call of [ChangeCreateOptions.Clause] returns: on all inputs
    there is an output it may produce. *)
Lemma Clause_total cco mods : ∃ out, Clause cco mods out.
Proof. eexists. apply Clause_in_key_order. Qed.

End Rendering.

(* ===================================================================== *)
(** * ModifyColumn.Unsafe: the remaining rules                             *)
(* ===================================================================== *)

Section OtherRules.
Import strings regexp reading families ModifyColumn.
Context `{UnicodeTables}.

Ltac other_families Hp :=
  repeat match goal with
  | |- context [HasPrefix ?s ?q] =>
      match type of Hp with
      | HasPrefix s ?p = true =>
          rewrite (HasPrefix_excl s p q Hp eq_refl eq_refl)
      end
  end; cbn [andb orb].

Ltac enter mc Hcs Hsg Hdiff :=
  let G1 := fresh in let G2 := fresh in let G3 := fresh in
  destruct (Unsafe_guards mc Hcs Hdiff Hsg) as (G1 & G2 & G3);
  unfold Unsafe; rewrite G1, G2, G3; cbn [negb];
  unfold bothSamePrefix; cbn [existsb].

(** The rule for [time], [timestamp] and [datetime] as the code computes
    it; [timestamp] is reached through its prefix [time]. *)
Lemma Unsafe_fsp_branch mc :
  CharSet (OldColumn mc) = CharSet (NewColumn mc) →
  isUnsigned (oldTypeOf mc) = isUnsigned (newTypeOf mc) →
  oldTypeOf mc ≠ newTypeOf mc →
  bothStart "time" (oldTypeOf mc) (newTypeOf mc)
  ∨ bothStart "datetime" (oldTypeOf mc) (newTypeOf mc) →
  Unsafe mc =
    if negb (hasParen (oldTypeOf mc)) then false
    else if negb (hasParen (newTypeOf mc)) then true
    else
      match FindStringSubmatch reFsp (oldTypeOf mc),
            FindStringSubmatch reFsp (newTypeOf mc) with
      | Some oldMatches, Some newMatches =>
          strconv.Atoi (at_ newMatches 1) <? strconv.Atoi (at_ oldMatches 1)
      | _, _ => true
      end.
Proof.
  intros Hcs Hsg Hdiff [Hfam | [Ho Hn]].
  - now apply Unsafe_time_prefix.
  - enter mc Hcs Hsg Hdiff. other_families Ho. now rewrite Ho, Hn.
Qed.

(** X5.  Within one character set and with equal signedness, for two
    distinct type strings that both start with [time] (which covers
    [timestamp]) or both with [datetime]: the change is safe when the old
    string has no parenthetical, unsafe when only the old one has one;
    when both parse as [name(n)] it is unsafe exactly when the new
    precision, read as an [int], is the smaller one; and when both have a
    parenthetical but one does not parse, it is unsafe. *)
Theorem Unsafe_fractional_seconds mc :
  CharSet (OldColumn mc) = CharSet (NewColumn mc) →
  isUnsigned (oldTypeOf mc) = isUnsigned (newTypeOf mc) →
  oldTypeOf mc ≠ newTypeOf mc →
  bothStart "time" (oldTypeOf mc) (newTypeOf mc)
  ∨ bothStart "datetime" (oldTypeOf mc) (newTypeOf mc) →
  (hasParen (oldTypeOf mc) = false → Unsafe mc = false)
  ∧ (hasParen (oldTypeOf mc) = true → hasParen (newTypeOf mc) = false → Unsafe mc = true)
  ∧ (∀ o n, isFsp (oldTypeOf mc) o → isFsp (newTypeOf mc) n →
            Unsafe mc = (asInt n <? asInt o))
  ∧ (hasParen (oldTypeOf mc) = true → hasParen (newTypeOf mc) = true →
     (¬ ∃ n, isFsp (oldTypeOf mc) n) ∨ (¬ ∃ n, isFsp (newTypeOf mc) n) →
     Unsafe mc = true).
Proof.
  intros Hcs Hsg Hdiff Hfam. rewrite (Unsafe_fsp_branch mc Hcs Hsg Hdiff Hfam).
  split; [|split; [|split]].
  - now intros ->.
  - now intros -> ->.
  - intros o n Ho Hn.
    rewrite (isFsp_hasParen _ _ Ho), (isFsp_hasParen _ _ Hn). cbn [negb].
    destruct (Find_fsp _ _ Ho) as [wo ->], (Find_fsp _ _ Hn) as [wn ->].
    destruct Ho as (? & _), Hn as (? & _).
    cbn [at_ nth]. now rewrite !Atoi_digits.
  - intros -> -> Hf. cbn [negb]. destruct Hf as [Hf | Hf].
    + destruct (FindStringSubmatch reFsp (oldTypeOf mc)) eqn:Eo; [|reflexivity].
      destruct Hf. eapply Find_fsp_inv, Eo.
    + destruct (FindStringSubmatch reFsp (newTypeOf mc)) eqn:En;
        [|now destruct (FindStringSubmatch reFsp (oldTypeOf mc))].
      destruct Hf. eapply Find_fsp_inv, En.
Qed.

(** What the loop of [isSafeSizeChange] leaves in a rank: what it started
    with, or the index of a name that is a prefix of the type. *)
Lemma ranks_found oldType newType ranking : ∀ n o r o' r',
  ranks oldType newType ranking n o r = (o', r') →
  (o' = o ∨ ∃ a, a ∈ ranking ∧ HasPrefix oldType a = true)
  ∧ (r' = r ∨ ∃ b, b ∈ ranking ∧ HasPrefix newType b = true).
Proof.
  induction ranking as [|name ranking IH]; intros n o r o' r'; cbn [ranks].
  - intros [= -> ->]. auto.
  - intros E. apply IH in E as [Ho Hr]. split.
    + destruct Ho as [-> | (a & Ha & Hp)].
      * destruct (HasPrefix oldType name) eqn:Hn; [right | left; reflexivity].
        exists name. split; [apply list_elem_of_here | assumption].
      * right. exists a. split; [now apply list_elem_of_further | assumption].
    + destruct Hr as [-> | (b & Hb & Hp)].
      * destruct (HasPrefix newType name) eqn:Hn; [right | left; reflexivity].
        exists name. split; [apply list_elem_of_here | assumption].
      * right. exists b. split; [now apply list_elem_of_further | assumption].
Qed.

Lemma isSafeSizeChange_names oldType newType ranking :
  isSafeSizeChange oldType newType ranking = true →
  ∃ a b, a ∈ ranking ∧ b ∈ ranking
         ∧ HasPrefix oldType a = true ∧ HasPrefix newType b = true.
Proof.
  unfold isSafeSizeChange.
  destruct (ranks oldType newType ranking 0 (-1) (-1)) as [o' r'] eqn:E.
  apply ranks_found in E as [Ho Hr].
  destruct (o' =? -1) eqn:Eo; [discriminate|]. destruct (r' =? -1) eqn:Er; [discriminate|].
  intros _. apply Z.eqb_neq in Eo, Er.
  destruct Ho as [-> | (a & Ha & Hpa)]; [congruence|].
  destruct Hr as [-> | (b & Hb & Hpb)]; [congruence|].
  now exists a, b.
Qed.

Lemma bothSamePrefix_names oldType newType prefix :
  bothSamePrefix oldType newType prefix = true →
  ∃ p, p ∈ prefix ∧ bothStart p oldType newType.
Proof.
  unfold bothSamePrefix. intros E. apply existsb_exists in E as (p & Hin & Hp).
  apply andb_true_iff in Hp. exists p. split; [now apply list_elem_of_In | exact Hp].
Qed.

Ltac member := apply list_elem_of_In; simpl; tauto.
Ltac included :=
  let q := fresh in let Hq := fresh in
  intros q Hq; apply list_elem_of_In in Hq; apply list_elem_of_In; simpl in *; tauto.

(** X6.  The classifier approves a change only inside a
    family: when it answers safe, the character sets are equal and either
    the lower-cased type strings are equal, or they agree on [unsigned] and
    belong to one family. *)
Theorem Unsafe_safe_only_within_family mc :
  Unsafe mc = false →
  CharSet (OldColumn mc) = CharSet (NewColumn mc)
  ∧ (oldTypeOf mc = newTypeOf mc
     ∨ (isUnsigned (oldTypeOf mc) = isUnsigned (newTypeOf mc)
        ∧ related (oldTypeOf mc) (newTypeOf mc))).
Proof.
  intros Hu. unfold Unsafe in Hu.
  destruct (String.eqb_spec (CharSet (OldColumn mc)) (CharSet (NewColumn mc))) as [Hcs|];
    [|discriminate]. cbn [negb] in Hu. split; [assumption|].
  destruct (String.eqb_spec (oldTypeOf mc) (newTypeOf mc)) as [|Hdiff]; [now left|].
  right.
  assert (Hsg : isUnsigned (oldTypeOf mc) = isUnsigned (newTypeOf mc)).
  { unfold isUnsigned.
    destruct (Contains (oldTypeOf mc) "unsigned"), (Contains (newTypeOf mc) "unsigned");
      cbn [andb orb negb] in Hu; try discriminate; reflexivity. }
  split; [assumption|].
  assert (Hsg' : (Contains (oldTypeOf mc) "unsigned" && negb (Contains (newTypeOf mc) "unsigned")
       || negb (Contains (oldTypeOf mc) "unsigned") && Contains (newTypeOf mc) "unsigned") = false).
  { unfold isUnsigned in Hsg. rewrite Hsg. now destruct (Contains (newTypeOf mc) "unsigned"). }
  rewrite Hsg' in Hu. clear Hsg'.
  assert (Hfound : ∀ prefix,
            bothSamePrefix (oldTypeOf mc) (newTypeOf mc) prefix = true →
            (∀ q, q ∈ prefix → q ∈ prefixFamilies) →
            related (oldTypeOf mc) (newTypeOf mc)).
  { intros prefix B Hsub. apply bothSamePrefix_names in B as (p & Hp & Hb).
    left. exists p. split; [now apply Hsub | exact Hb]. }
  destruct (bothSamePrefix _ _ ["enum"; "set"]) eqn:B1 in Hu.
  { apply (Hfound _ B1). included. }
  destruct (bothSamePrefix _ _ ["decimal"]) eqn:B2 in Hu.
  { apply (Hfound _ B2). included. }
  destruct (bothSamePrefix _ _ ["varchar"; "varbinary"]) eqn:B3 in Hu.
  { apply (Hfound _ B3). included. }
  destruct (bothSamePrefix _ _ ["time"; "timestamp"; "datetime"]) eqn:B4 in Hu.
  { apply (Hfound _ B4). included. }
  destruct (bothSamePrefix _ _ ["float"; "double"]) eqn:B5 in Hu.
  { apply (Hfound _ B5). included. }
  cbn [orb] in Hu.
  destruct (HasPrefix (oldTypeOf mc) "float" && HasPrefix (newTypeOf mc) "double") eqn:B6 in Hu.
  { right. left. now apply andb_true_iff in B6. }
  right. right. unfold rankings.
  destruct (isSafeSizeChange _ _ intRank) eqn:R1 in Hu.
  { apply isSafeSizeChange_names in R1 as (a & b & Ha & Hb & Hpa & Hpb).
    exists intRank, a, b. split; [member | now repeat split]. }
  destruct (isSafeSizeChange _ _ blobRank) eqn:R2 in Hu.
  { apply isSafeSizeChange_names in R2 as (a & b & Ha & Hb & Hpa & Hpb).
    exists blobRank, a, b. split; [member | now repeat split]. }
  destruct (isSafeSizeChange _ _ textRank) eqn:R3 in Hu.
  { apply isSafeSizeChange_names in R3 as (a & b & Ha & Hb & Hpa & Hpb).
    exists textRank, a, b. split; [member | now repeat split]. }
  discriminate Hu.
Qed.

(** Rewrites the tests of both types against the family names, given a
    name each of them starts with, and computes what is left. *)
Ltac settle Ho Hn :=
  unfold bothSamePrefix, isSafeSizeChange, intRank, blobRank, textRank;
  cbn [existsb ranks];
  repeat match goal with
  | |- context [HasPrefix ?s ?q] =>
      first
        [ match type of Ho with
          | HasPrefix s ?p = true =>
              first [ rewrite (HasPrefix_excl s p q Ho eq_refl eq_refl)
                    | rewrite (HasPrefix_trans s p q Ho eq_refl) ]
          end
        | match type of Hn with
          | HasPrefix s ?p = true =>
              first [ rewrite (HasPrefix_excl s p q Hn eq_refl eq_refl)
                    | rewrite (HasPrefix_trans s p q Hn eq_refl) ]
          end ]
  end.

(** X7.  Within one character set and with equal signedness, when
    the old type string starts with the i-th name of a ranking (integer,
    blob or text) and the new one with the j-th name of the same ranking,
    the change is unsafe exactly when j is below i: widening and a change
    of display width are safe, narrowing is unsafe. *)
Theorem Unsafe_ranked mc (ranking : list string) (i j : nat) (a b : string) :
  CharSet (OldColumn mc) = CharSet (NewColumn mc) →
  isUnsigned (oldTypeOf mc) = isUnsigned (newTypeOf mc) →
  ranking ∈ rankings →
  ranking !! i = Some a → ranking !! j = Some b →
  HasPrefix (oldTypeOf mc) a = true → HasPrefix (newTypeOf mc) b = true →
  Unsafe mc = (j <? i)%nat.
Proof.
  intros Hcs Hsg Hr Hi Hj Ho Hn.
  assert (Hr' : ranking = intRank ∨ ranking = blobRank ∨ ranking = textRank).
  { unfold rankings in Hr. apply list_elem_of_In in Hr. cbn [In] in Hr.
    destruct Hr as [<- | [<- | [<- | []]]]; auto. }
  clear Hr.
  destruct (String.eqb_spec (oldTypeOf mc) (newTypeOf mc)) as [E|Hdiff].
  - assert (Hu : Unsafe mc = false).
    { unfold Unsafe. apply String.eqb_eq in Hcs, E. now rewrite Hcs, E. }
    rewrite Hu. rewrite <- E in Hn. clear Hu E Hsg Hcs.
    destruct Hr' as [-> | [-> | ->]];
      repeat (destruct i as [|i]; [| try discriminate Hi]);
      try discriminate Hi; injection Hi as <-;
      repeat (destruct j as [|j]; [| try discriminate Hj]);
      try discriminate Hj; injection Hj as <-;
      first [ reflexivity
            | exfalso; exact (HasPrefix_clash _ _ _ Ho Hn eq_refl eq_refl) ].
  - destruct (Unsafe_guards mc Hcs Hdiff Hsg) as (G1 & G2 & G3).
    unfold Unsafe. rewrite G1, G2, G3. cbn [negb]. clear G1 G2 G3 Hdiff Hsg Hcs.
    destruct Hr' as [-> | [-> | ->]];
      repeat (destruct i as [|i]; [| try discriminate Hi]);
      try discriminate Hi; injection Hi as <-;
      repeat (destruct j as [|j]; [| try discriminate Hj]);
      try discriminate Hj; injection Hj as <-;
      settle Ho Hn; reflexivity.
Qed.

(** X8.  Anything involving a fixed-width type is unsafe: when the
    old or the new type string starts with [char] or [binary] and the two
    (lower-cased) strings differ, the change is unsafe, a longer length
    included. *)
Theorem Unsafe_fixed_width mc :
  fixedWidth (oldTypeOf mc) ∨ fixedWidth (newTypeOf mc) →
  oldTypeOf mc ≠ newTypeOf mc →
  Unsafe mc = true.
Proof.
  intros Hfw Hdiff. unfold Unsafe.
  destruct (CharSet (OldColumn mc) =? CharSet (NewColumn mc))%string; [|reflexivity].
  cbn [negb]. apply String.eqb_neq in Hdiff. rewrite Hdiff.
  match goal with |- (if ?b then true else _) = true => destruct b; [reflexivity|] end.
  unfold fixedWidth in Hfw.
  destruct Hfw as [[Hp | Hp] | [Hp | Hp]]; settle Hp Hp;
    change (-1 =? -1) with true;
    rewrite ?andb_false_r, ?orb_true_r; reflexivity.
Qed.

(** X9.  What the four patterns accept: each matches exactly the
    type strings that begin [name(p,s)], respectively [name(n)], for its
    names (any text may follow), and captures the digits. *)
Theorem type_patterns_read :
  (∀ t p s, isDecimal t p s → ∃ whole, FindStringSubmatch reDecimal t = Some [whole; p; s])
  ∧ (∀ t, (¬ ∃ p s, isDecimal t p s) → FindStringSubmatch reDecimal t = None)
  ∧ (∀ t n, isVar t n → ∃ whole, FindStringSubmatch reVar t = Some [whole; n])
  ∧ (∀ t, (¬ ∃ n, isVar t n) → FindStringSubmatch reVar t = None)
  ∧ (∀ t n, isFsp t n → ∃ whole, FindStringSubmatch reFsp t = Some [whole; n])
  ∧ (∀ t, (¬ ∃ n, isFsp t n) → FindStringSubmatch reFsp t = None)
  ∧ (∀ t p s, isFloat t p s → ∃ whole, FindStringSubmatch reFloat t = Some [whole; p; s])
  ∧ (∀ t, (¬ ∃ p s, isFloat t p s) → FindStringSubmatch reFloat t = None).
Proof.
  split; [exact Find_decimal|]. split.
  { intros t Hno. destruct (FindStringSubmatch reDecimal t) eqn:E; [|reflexivity].
    destruct Hno. eapply Find_decimal_inv, E. }
  split; [exact Find_var|]. split.
  { intros t Hno. destruct (FindStringSubmatch reVar t) eqn:E; [|reflexivity].
    destruct Hno. eapply Find_var_inv, E. }
  split; [exact Find_fsp|]. split.
  { intros t Hno. destruct (FindStringSubmatch reFsp t) eqn:E; [|reflexivity].
    destruct Hno. eapply Find_fsp_inv, E. }
  split; [exact Find_float|].
  intros t Hno. destruct (FindStringSubmatch reFloat t) eqn:E; [|reflexivity].
  destruct Hno. eapply Find_float_inv, E.
Qed.

End OtherRules.

(* ===================================================================== *)
(** * Create options                                                       *)
(* ===================================================================== *)

Section SplitJoin.
Import strings options.

Lemma splitByte_app sep a b :
  splitByte sep (a +:+ String sep b)
  = ((splitByte sep a).1, ((splitByte sep a).2 ++ Split b sep)%list).
Proof.
  induction a as [|c a IH]; cbn [append splitByte].
  - rewrite Ascii.eqb_refl. unfold Split. now destruct (splitByte sep b).
  - rewrite IH. destruct (splitByte sep a) as [p ps]. cbn [fst snd].
    now destruct (Ascii.eqb c sep).
Qed.

Lemma Split_app sep a b :
  Split (a +:+ String sep b) sep = (Split a sep ++ Split b sep)%list.
Proof.
  unfold Split at 1 2. rewrite splitByte_app. now destruct (splitByte sep a).
Qed.

Lemma Split_none sep s : ContainsRune s sep = false → Split s sep = [s].
Proof.
  unfold Split. induction s as [|c s IH]; [reflexivity|]. cbn [ContainsRune splitByte].
  intros E. apply orb_false_iff in E as [Ec E]. rewrite Ec.
  specialize (IH E). destruct (splitByte sep s) as [p ps]. now injection IH as -> ->.
Qed.

Lemma Split_length sep s : length (Split s sep) = S (countByte sep s).
Proof.
  unfold Split. induction s as [|c s IH]; [reflexivity|]. cbn [splitByte countByte].
  destruct (splitByte sep s) as [p ps]. destruct (Ascii.eqb c sep); cbn in *; lia.
Qed.

(** No piece contains the separator, nor any byte the string has not. *)
Lemma Split_pieces sep s piece :
  piece ∈ Split s sep →
  ContainsRune piece sep = false
  ∧ ∀ c, ContainsRune s c = false → ContainsRune piece c = false.
Proof.
  unfold Split. revert piece. induction s as [|a s IH]; intros piece.
  - cbn. intros Hp. apply list_elem_of_singleton in Hp as ->. auto.
  - cbn [splitByte]. destruct (splitByte sep s) as [p ps].
    destruct (Ascii.eqb_spec a sep) as [->|Hne].
    + intros Hp. apply elem_of_cons in Hp as [-> | Hp].
      * auto.
      * destruct (IH piece Hp) as [H1 H2]. split; [assumption|].
        intros c Hc. cbn [ContainsRune] in Hc. apply orb_false_iff in Hc as [_ Hc]. auto.
    + intros Hp. apply elem_of_cons in Hp as [-> | Hp].
      * destruct (IH p (list_elem_of_here _ _)) as [H1 H2]. split.
        -- cbn [ContainsRune]. rewrite H1, orb_false_r. now apply Ascii.eqb_neq.
        -- intros c Hc. cbn [ContainsRune] in *. apply orb_false_iff in Hc as [-> Hc].
           now rewrite (H2 c Hc).
      * destruct (IH piece (list_elem_of_further _ _ _ Hp)) as [H1 H2]. split; [assumption|].
        intros c Hc. cbn [ContainsRune] in Hc. apply orb_false_iff in Hc as [_ Hc]. auto.
Qed.

Lemma Split_Join (l : list string) :
  l ≠ [] → (∀ e, e ∈ l → ContainsRune e " " = false) →
  Split (Join l " ") " " = l.
Proof.
  induction l as [|e l IH]; [congruence|]. intros _ Hl.
  destruct l as [|e' l].
  - cbn [Join]. apply Split_none, Hl, list_elem_of_here.
  - change (Join (e :: e' :: l) " ") with (e +:+ String " " (Join (e' :: l) " ")).
    rewrite Split_app, Split_none by apply Hl, list_elem_of_here.
    rewrite IH; [reflexivity | discriminate |].
    intros x Hx. apply Hl. now apply list_elem_of_further.
Qed.

Lemma Join_empty (l : list string) sep :
  (∀ e, e ∈ l → e ≠ "") → Join l sep = "" → l = [].
Proof.
  destruct l as [|e l]; [reflexivity|]. intros Hl E. exfalso.
  apply (Hl e (list_elem_of_here _ _)).
  destruct l; cbn [Join] in E; [assumption|]. now destruct e.
Qed.

End SplitJoin.

Section Options.
Import strings options ChangeCreateOptions.

Lemma splitOpts_step full tok :
  ContainsRune tok " " = false →
  splitOpts (full +:+ " " +:+ tok)
  = match Split tok "=" with
    | [k; v] => <[k := v]> (splitOpts full)
    | _ => splitOpts full
    end.
Proof.
  intros Htok. unfold splitOpts.
  change (full +:+ " " +:+ tok) with (full +:+ String " " tok).
  now rewrite Split_app, fold_left_app, (Split_none " " tok Htok).
Qed.

Lemma Split_assign k v :
  ContainsRune k "=" = false → ContainsRune v "=" = false →
  Split (k +:+ "=" +:+ v) "=" = [k; v].
Proof.
  intros Hk Hv. change (k +:+ "=" +:+ v) with (k +:+ String "=" v).
  now rewrite Split_app, !Split_none.
Qed.

(** X10.  How the option string is read, token by token: the empty
    string holds no option; a further token [k=v] sets [k] to [v],
    overriding an earlier value; a further token with no [=] or more than
    one is skipped. *)
Theorem splitOpts_tokens :
  splitOpts "" = ∅
  ∧ (∀ full k v, clean k → clean v →
       splitOpts (full +:+ " " +:+ k +:+ "=" +:+ v) = <[k := v]> (splitOpts full))
  ∧ (∀ full tok, ContainsRune tok " " = false → countByte "=" tok ≠ 1%nat →
       splitOpts (full +:+ " " +:+ tok) = splitOpts full).
Proof.
  split; [reflexivity|]. split.
  - intros full k v [Hk1 Hk2] [Hv1 Hv2].
    rewrite (splitOpts_step full (k +:+ "=" +:+ v)).
    + now rewrite Split_assign.
    + rewrite !ContainsRune_app, Hk1, Hv1. reflexivity.
  - intros full tok Htok Hcount. rewrite (splitOpts_step full tok Htok).
    pose proof (Split_length "=" tok) as Hlen.
    destruct (Split tok "=") as [|k [|v [|x l]]]; try reflexivity.
    cbn in Hlen. lia.
Qed.

Lemma splitOpts_fold_clean (tokens : list string) : ∀ acc : gmap string string,
  (∀ tok, tok ∈ tokens → ContainsRune tok " " = false) →
  map_Forall (fun k v => clean k ∧ clean v) acc →
  map_Forall (fun k v => clean k ∧ clean v)
    (fold_left (fun result kv =>
                  match Split kv "=" with
                  | [k; v] => <[k := v]> result
                  | _ => result
                  end) tokens acc).
Proof.
  induction tokens as [|tok tokens IH]; intros acc Htok Hacc; [exact Hacc|].
  cbn [fold_left]. apply IH.
  - intros t Ht. apply Htok. now apply list_elem_of_further.
  - pose proof (Htok tok (list_elem_of_here _ _)) as Hsp.
    destruct (Split tok "=") as [|k [|v [|x l]]] eqn:E; try exact Hacc.
    apply map_Forall_insert_2; [|exact Hacc].
    assert (Hk : k ∈ Split tok "=") by (rewrite E; apply list_elem_of_here).
    assert (Hv : v ∈ Split tok "=")
      by (rewrite E; apply list_elem_of_further, list_elem_of_here).
    apply Split_pieces in Hk as [Hk1 Hk2], Hv as [Hv1 Hv2].
    repeat split; auto.
Qed.

Lemma splitOpts_all_clean full :
  map_Forall (fun k v => clean k ∧ clean v) (splitOpts full).
Proof.
  unfold splitOpts. apply splitOpts_fold_clean.
  - intros tok Htok. now apply Split_pieces in Htok as [? _].
  - apply map_Forall_empty.
Qed.

(** X11.  Every option read from an option string has a key and a
    value without space and without [=], whatever the string. *)
Theorem splitOpts_clean full k v :
  splitOpts full !! k = Some v → clean k ∧ clean v.
Proof. intros Hkv. exact (splitOpts_all_clean full k v Hkv). Qed.

Lemma map_flat_map {A B C} (f : B → C) (g : A → list B) (l : list A) :
  map f (flat_map g l) = flat_map (fun x => map f (g x)) l.
Proof.
  induction l as [|x l IH]; [reflexivity|]. cbn [flat_map]. now rewrite map_app, IH.
Qed.

(** The text the two loops emit is the text of their assignments. *)
Lemma subclauses_edits oldOpts newOpts order1 order2 :
  subclausesAlong oldOpts newOpts order1 order2
  = map assign (edits oldOpts newOpts order1 order2).
Proof.
  rewrite subclausesAlong_groups. unfold edits. rewrite map_app, !map_flat_map.
  f_equal; apply flat_map_ext; intros [k v]; unfold changedOrGone, added, resetValue, assign.
  - destruct (newOpts !! k); [|reflexivity]. now destruct (negb _).
  - now destruct (oldOpts !! k).
Qed.

(** Which assignments are made, whatever the visiting order. *)
Lemma edits_spec (oldOpts newOpts : gmap string string) order1 order2 k v :
  rangeOrder oldOpts order1 → rangeOrder newOpts order2 →
  (k, v) ∈ edits oldOpts newOpts order1 order2 ↔
    (∃ ov, oldOpts !! k = Some ov ∧ newOpts !! k = Some v ∧ v ≠ ov)
    ∨ (is_Some (oldOpts !! k) ∧ newOpts !! k = None ∧ v = resetValue k)
    ∨ (oldOpts !! k = None ∧ newOpts !! k = Some v).
Proof.
  unfold rangeOrder. intros P1 P2. unfold edits.
  rewrite elem_of_app, !list_elem_of_In, !in_flat_map. split.
  - intros [([k1 v1] & Hin & Hout) | ([k2 v2] & Hin & Hout)].
    + apply list_elem_of_In in Hin. rewrite P1 in Hin. apply elem_of_map_to_list in Hin.
      destruct (newOpts !! k1) as [nv|] eqn:En.
      * destruct (String.eqb_spec nv v1) as [->|Hne]; cbn [negb] in Hout; [destruct Hout|].
        destruct Hout as [[= <- <-] | []]. left. eauto.
      * destruct Hout as [[= <- <-] | []]. right. left. eauto.
    + apply list_elem_of_In in Hin. rewrite P2 in Hin. apply elem_of_map_to_list in Hin.
      destruct (oldOpts !! k2) as [ov|] eqn:Eo; [destruct Hout|].
      destruct Hout as [[= <- <-] | []]. right. right. auto.
  - intros [(ov & Ho & Hn & Hne) | [([ov Ho] & Hn & ->) | [Ho Hn]]].
    + left. exists (k, ov). split.
      * apply list_elem_of_In. rewrite P1. now apply elem_of_map_to_list.
      * rewrite Hn. destruct (String.eqb_spec v ov); [congruence|]. now left.
    + left. exists (k, ov). split.
      * apply list_elem_of_In. rewrite P1. now apply elem_of_map_to_list.
      * rewrite Hn. now left.
    + right. exists (k, v). split.
      * apply list_elem_of_In. rewrite P2. now apply elem_of_map_to_list.
      * rewrite Ho. now left.
Qed.

(** No key is assigned two values. *)
Lemma edits_functional (oldOpts newOpts : gmap string string) order1 order2 k v v' :
  rangeOrder oldOpts order1 → rangeOrder newOpts order2 →
  (k, v) ∈ edits oldOpts newOpts order1 order2 →
  (k, v') ∈ edits oldOpts newOpts order1 order2 → v = v'.
Proof.
  intros P1 P2 H1 H2. apply (edits_spec _ _ _ _ _ _ P1 P2) in H1, H2.
  destruct H1 as [(ov & Ho & Hn & Hne) | [([ov Ho] & Hn & ->) | [Ho Hn]]];
    destruct H2 as [(ov' & Ho' & Hn' & Hne') | [([ov' Ho'] & Hn' & ->) | [Ho' Hn']]];
    congruence.
Qed.

Lemma resetValue_clean k : clean (resetValue k).
Proof.
  unfold resetValue. destruct (knownDefaults !! k) as [def|] eqn:E; [|now split].
  unfold knownDefaults in E. apply elem_of_list_to_map_2 in E.
  apply list_elem_of_In in E. cbn [In] in E.
  repeat (destruct E as [[= <- <-] | E]; [now split|]). destruct E.
Qed.

Lemma edits_clean oldOpts newOpts order1 order2 k v :
  map_Forall (fun k v => clean k ∧ clean v) oldOpts →
  map_Forall (fun k v => clean k ∧ clean v) newOpts →
  rangeOrder oldOpts order1 → rangeOrder newOpts order2 →
  (k, v) ∈ edits oldOpts newOpts order1 order2 → clean k ∧ clean v.
Proof.
  intros Co Cn P1 P2 Hin. apply (edits_spec _ _ _ _ _ _ P1 P2) in Hin.
  destruct Hin as [(ov & Ho & Hn & Hne) | [([ov Ho] & Hn & ->) | [Ho Hn]]].
  - exact (Cn _ _ Hn).
  - split; [exact (proj1 (Co _ _ Ho)) | apply resetValue_clean].
  - exact (Cn _ _ Hn).
Qed.

Lemma emitted_keys_NoDup {V W} (f : string * V → list (string * W)) (l : list (string * V)) :
  (∀ x y, y ∈ f x → y.1 = x.1) → (∀ x, (length (f x) <= 1)%nat) →
  NoDup (l.*1) → NoDup ((flat_map f l).*1).
Proof.
  intros Hkey Hone. induction l as [|x l IH]; intros Hnd; [constructor|].
  cbn [flat_map]. rewrite fmap_app. cbn [fmap list_fmap] in Hnd. apply NoDup_cons in Hnd as [Hx Hnd].
  apply NoDup_app. split; [|split; [|now apply IH]].
  - specialize (Hone x). destruct (f x) as [|y [|z r]]; cbn in *; try lia.
    + constructor.
    + apply NoDup_singleton.
  - intros k Hk Hk'. apply Hx.
    apply list_elem_of_fmap in Hk as (y & -> & Hy).
    apply list_elem_of_fmap in Hk' as (z & Hz & Hz').
    apply list_elem_of_In, in_flat_map in Hz' as (w & Hw & Hw').
    apply list_elem_of_In in Hw, Hw'.
    rewrite <- (Hkey x y Hy), Hz, (Hkey w z Hw').
    apply list_elem_of_fmap. eauto.
Qed.

(** No key is assigned twice. *)
Lemma edits_keys_NoDup (oldOpts newOpts : gmap string string) order1 order2 :
  rangeOrder oldOpts order1 → rangeOrder newOpts order2 →
  NoDup ((edits oldOpts newOpts order1 order2).*1).
Proof.
  unfold rangeOrder. intros P1 P2. unfold edits. rewrite fmap_app.
  apply NoDup_app. split; [|split].
  - apply emitted_keys_NoDup.
    + intros [k v] y Hy. destruct (newOpts !! k) as [nv|].
      * destruct (negb _); [apply list_elem_of_singleton in Hy as ->; reflexivity|].
        now apply elem_of_nil in Hy.
      * apply list_elem_of_singleton in Hy as ->. reflexivity.
    + intros [k v]. destruct (newOpts !! k); [destruct (negb _)|]; cbn; lia.
    + rewrite P1. apply NoDup_fst_map_to_list.
  - intros k Hk Hk'.
    apply list_elem_of_fmap in Hk as ([k1 v1] & -> & Hy).
    apply list_elem_of_In, in_flat_map in Hy as ([k0 v0] & Hin & Hout).
    apply list_elem_of_In in Hin. rewrite P1 in Hin. apply elem_of_map_to_list in Hin.
    assert (k1 = k0) as ->.
    { destruct (newOpts !! k0); [destruct (negb _)|]; cbn [In] in Hout;
        intuition congruence. }
    apply list_elem_of_fmap in Hk' as ([k2 v2] & Hk2 & Hz). cbn [fst] in Hk2. subst k2.
    apply list_elem_of_In, in_flat_map in Hz as ([k3 v3] & _ & Hout3).
    destruct (oldOpts !! k3) eqn:E3; cbn [In] in Hout3; [destruct Hout3|].
    destruct Hout3 as [[= <- <-] | []]. congruence.
  - apply emitted_keys_NoDup.
    + intros [k v] y Hy. destruct (oldOpts !! k).
      * now apply elem_of_nil in Hy.
      * apply list_elem_of_singleton in Hy as ->. reflexivity.
    + intros [k v]. destruct (oldOpts !! k); cbn; lia.
    + rewrite P2. apply NoDup_fst_map_to_list.
Qed.

(** X12.  What a call renders: the assignments, joined by
    spaces, of the new value to every key whose value changed, of the
    reset value to every key the new options drop, and of its value to
    every key only the new options have; nothing else, and no key twice. *)
Theorem Clause_assignments cco mods out :
  Clause cco mods out →
  let oldOpts := splitOpts (OldCreateOptions cco) in
  let newOpts := splitOpts (NewCreateOptions cco) in
  ∃ pairs,
    out = Join (map assign pairs) " "
    ∧ NoDup (pairs.*1)
    ∧ ∀ k v, (k, v) ∈ pairs ↔
        (∃ ov, oldOpts !! k = Some ov ∧ newOpts !! k = Some v ∧ v ≠ ov)
        ∨ (is_Some (oldOpts !! k) ∧ newOpts !! k = None ∧ v = resetValue k)
        ∨ (oldOpts !! k = None ∧ newOpts !! k = Some v).
Proof.
  intros [o1 o2 oldOpts newOpts P1 P2]. cbv zeta. fold oldOpts newOpts.
  exists (edits oldOpts newOpts o1 o2). split; [|split].
  - now rewrite subclauses_edits.
  - now apply edits_keys_NoDup.
  - intros k v. now apply edits_spec.
Qed.

Lemma assign_not_empty kv : assign kv ≠ "".
Proof. unfold assign. destruct kv as [[|c k] v]; discriminate. Qed.

(** X13.  A call renders the empty string exactly when the two option
    strings hold the same options, in whatever order and with whatever
    skipped tokens they are written. *)
Theorem Clause_empty_iff cco mods out :
  Clause cco mods out →
  out = "" ↔ splitOpts (OldCreateOptions cco) = splitOpts (NewCreateOptions cco).
Proof.
  intros [o1 o2 oldOpts newOpts P1 P2]. rewrite subclauses_edits.
  split.
  - intros E. apply Join_empty in E.
    2:{ intros e He. apply list_elem_of_fmap in He as (kv & -> & _). apply assign_not_empty. }
    apply map_eq_nil in E. apply map_eq. intros k. fold oldOpts newOpts.
    destruct (oldOpts !! k) as [ov|] eqn:Eo, (newOpts !! k) as [nv|] eqn:En; try reflexivity.
    + destruct (String.eqb_spec nv ov) as [->|Hne]; [reflexivity|]. exfalso.
      assert (Hin : (k, nv) ∈ edits oldOpts newOpts o1 o2)
        by (apply (edits_spec _ _ _ _ k nv P1 P2); left; eauto).
      rewrite E in Hin. now apply elem_of_nil in Hin.
    + exfalso.
      assert (Hin : (k, resetValue k) ∈ edits oldOpts newOpts o1 o2)
        by (apply (edits_spec _ _ _ _ k _ P1 P2); right; left; eauto).
      rewrite E in Hin. now apply elem_of_nil in Hin.
    + exfalso.
      assert (Hin : (k, nv) ∈ edits oldOpts newOpts o1 o2)
        by (apply (edits_spec _ _ _ _ k nv P1 P2); right; right; eauto).
      rewrite E in Hin. now apply elem_of_nil in Hin.
  - intros Heq. fold oldOpts newOpts in Heq.
    assert (E : edits oldOpts newOpts o1 o2 = []).
    { destruct (edits oldOpts newOpts o1 o2) as [|[k v] l] eqn:Ed; [reflexivity|]. exfalso.
      assert (Hin : (k, v) ∈ edits oldOpts newOpts o1 o2)
        by (rewrite Ed; apply list_elem_of_here).
      apply (edits_spec _ _ _ _ k v P1 P2) in Hin. rewrite Heq in Hin.
      destruct Hin as [(ov & Ho & Hn & Hne) | [([ov Ho] & Hn & _) | [Ho Hn]]]; congruence. }
    now rewrite E.
Qed.

Lemma fold_assignments (pairs : list (string * string)) : ∀ acc : gmap string string,
  (∀ kv, kv ∈ pairs → clean kv.1 ∧ clean kv.2) →
  fold_left (fun result kv =>
               match Split kv "=" with
               | [k; v] => <[k := v]> result
               | _ => result
               end) (map assign pairs) acc
  = fold_left (fun result kv => <[kv.1 := kv.2]> result) pairs acc.
Proof.
  induction pairs as [|[k v] pairs IH]; intros acc Hc; [reflexivity|].
  cbn [map fold_left]. destruct (Hc (k, v) (list_elem_of_here _ _)) as [[_ Hk] [_ Hv]].
  change (assign (k, v)) with (k +:+ "=" +:+ v). rewrite (Split_assign k v Hk Hv).
  apply IH. intros kv Hkv. apply Hc. now apply list_elem_of_further.
Qed.

(** Reading back the text of assignments with distinct keys gives those
    assignments. *)
Lemma splitOpts_assignments (pairs : list (string * string)) k v :
  (∀ kv, kv ∈ pairs → clean kv.1 ∧ clean kv.2) → NoDup (pairs.*1) →
  splitOpts (Join (map assign pairs) " ") !! k = Some v ↔ (k, v) ∈ pairs.
Proof.
  intros Hc Hnd.
  assert (E : splitOpts (Join (map assign pairs) " ") = list_to_map (rev pairs)).
  { destruct pairs as [|kv0 pairs0] eqn:Ep; [reflexivity|]. rewrite <- Ep in *.
    unfold splitOpts. rewrite Split_Join.
    - rewrite fold_assignments by assumption.
      symmetry.
      exact (fold_left_rev_right
               (fun (kv : string * string) (m : gmap string string) => <[kv.1 := kv.2]> m)
               pairs ∅).
    - rewrite Ep. discriminate.
    - intros e He. apply list_elem_of_fmap in He as (kv & -> & Hkv).
      destruct (Hc kv Hkv) as [[Hk _] [Hv _]].
      unfold assign. now rewrite !ContainsRune_app, Hk, Hv. }
  rewrite E, <- elem_of_list_to_map.
  - now rewrite list_elem_of_In, <- in_rev, <- list_elem_of_In.
  - rewrite rev_alt. change (rev_append pairs []) with (reverse pairs).
    now rewrite fmap_reverse, reverse_Permutation.
Qed.

(** X14.  The rendered assignments do the job: read back and
    applied to the old options, they give every key of the new options its
    new value and every dropped key its reset value, and leave no other
    key; when no key is dropped the result is the new options. *)
Theorem Clause_round_trip cco mods out :
  Clause cco mods out →
  let oldOpts := splitOpts (OldCreateOptions cco) in
  let newOpts := splitOpts (NewCreateOptions cco) in
  (∀ k, applied out oldOpts !! k
        = match newOpts !! k with
          | Some v => Some v
          | None => (fun _ => resetValue k) <$> oldOpts !! k
          end)
  ∧ ((∀ k, is_Some (oldOpts !! k) → is_Some (newOpts !! k)) →
     applied out oldOpts = newOpts).
Proof.
  intros [o1 o2 oldOpts newOpts P1 P2]. cbv zeta. fold oldOpts newOpts.
  rewrite subclauses_edits.
  assert (Hread : ∀ k v,
            splitOpts (Join (map assign (edits oldOpts newOpts o1 o2)) " ") !! k = Some v
            ↔ (k, v) ∈ edits oldOpts newOpts o1 o2).
  { intros k v. apply splitOpts_assignments.
    - intros [k' v'] Hkv.
      apply (edits_clean oldOpts newOpts o1 o2 k' v'); auto;
        intros a b Hab; exact (splitOpts_all_clean _ a b Hab).
    - now apply edits_keys_NoDup. }
  assert (Hall : ∀ k,
            applied (Join (map assign (edits oldOpts newOpts o1 o2)) " ") oldOpts !! k
            = match newOpts !! k with
              | Some v => Some v
              | None => (fun _ => resetValue k) <$> oldOpts !! k
              end).
  { intros k. unfold applied. rewrite lookup_union.
    destruct (splitOpts _ !! k) as [v|] eqn:Es.
    - apply Hread, (edits_spec _ _ _ _ _ _ P1 P2) in Es.
      destruct Es as [(ov & Ho & Hn & Hne) | [([ov Ho] & Hn & ->) | [Ho Hn]]];
        rewrite Hn, Ho; reflexivity.
    - destruct (oldOpts !! k) as [ov|] eqn:Eo, (newOpts !! k) as [nv|] eqn:En;
        cbn; try reflexivity.
      + destruct (String.eqb_spec nv ov) as [->|Hne]; [reflexivity|]. exfalso.
        assert (Hin : (k, nv) ∈ edits oldOpts newOpts o1 o2)
          by (apply (edits_spec _ _ _ _ k nv P1 P2); left; eauto).
        apply Hread in Hin. congruence.
      + exfalso.
        assert (Hin : (k, resetValue k) ∈ edits oldOpts newOpts o1 o2)
          by (apply (edits_spec _ _ _ _ k _ P1 P2); right; left; eauto).
        apply Hread in Hin. congruence.
      + exfalso.
        assert (Hin : (k, nv) ∈ edits oldOpts newOpts o1 o2)
          by (apply (edits_spec _ _ _ _ k nv P1 P2); right; right; eauto).
        apply Hread in Hin. congruence. }
  split; [exact Hall|].
  intros Hkeep. apply map_eq. intros k. rewrite Hall.
  destruct (newOpts !! k) as [nv|] eqn:En; [reflexivity|].
  destruct (oldOpts !! k) as [ov|] eqn:Eo; [|reflexivity].
  destruct (Hkeep k) as [nv Hnv]; [eauto | congruence].
Qed.

End Options.
(* ===================================================================== *)
(** * ChangeCreateOptions.Clause: what two calls have in common            *)
(* ===================================================================== *)

Section Order.
Import strings options ChangeCreateOptions.

(** The assignments of the first loop, along the order it visits the old
    options in. *)
Lemma changed_group (oldOpts newOpts : gmap string string) order1 :
  rangeOrder oldOpts order1 →
  listsOnce (changedOrReset oldOpts newOpts)
    (flat_map (fun '(k, v) =>
                 match newOpts !! k with
                 | Some newValue =>
                     if negb (String.eqb newValue v) then [(k, newValue)] else []
                 | None => [(k, resetValue k)]
                 end) order1).
Proof.
  unfold rangeOrder. intros P1. split.
  - apply emitted_keys_NoDup.
    + intros [k v] y Hy. destruct (newOpts !! k) as [nv|].
      * destruct (negb _); [apply list_elem_of_singleton in Hy as ->; reflexivity|].
        now apply elem_of_nil in Hy.
      * apply list_elem_of_singleton in Hy as ->. reflexivity.
    + intros [k v]. destruct (newOpts !! k); [destruct (negb _)|]; cbn; lia.
    + rewrite P1. apply NoDup_fst_map_to_list.
  - intros [k v]. unfold changedOrReset. cbn [fst snd].
    rewrite list_elem_of_In, in_flat_map. split.
    + intros ([k1 v1] & Hin & Hout).
      apply list_elem_of_In in Hin. rewrite P1 in Hin. apply elem_of_map_to_list in Hin.
      destruct (newOpts !! k1) as [nv|] eqn:En.
      * destruct (String.eqb_spec nv v1) as [->|Hne]; cbn [negb] in Hout; [destruct Hout|].
        destruct Hout as [[= <- <-] | []]. left. eauto.
      * destruct Hout as [[= <- <-] | []]. right. eauto.
    + intros [(ov & Ho & Hn & Hne) | ([ov Ho] & Hn & ->)].
      * exists (k, ov). split.
        -- apply list_elem_of_In. rewrite P1. now apply elem_of_map_to_list.
        -- rewrite Hn. destruct (String.eqb_spec v ov); [congruence|]. now left.
      * exists (k, ov). split.
        -- apply list_elem_of_In. rewrite P1. now apply elem_of_map_to_list.
        -- rewrite Hn. now left.
Qed.

(** The assignments of the second loop, along the order it visits the new
    options in. *)
Lemma added_group (oldOpts newOpts : gmap string string) order2 :
  rangeOrder newOpts order2 →
  listsOnce (onlyNew oldOpts newOpts)
    (flat_map (fun '(k, v) =>
                 match oldOpts !! k with
                 | Some _ => []
                 | None => [(k, v)]
                 end) order2).
Proof.
  unfold rangeOrder. intros P2. split.
  - apply emitted_keys_NoDup.
    + intros [k v] y Hy. destruct (oldOpts !! k).
      * now apply elem_of_nil in Hy.
      * apply list_elem_of_singleton in Hy as ->. reflexivity.
    + intros [k v]. destruct (oldOpts !! k); cbn; lia.
    + rewrite P2. apply NoDup_fst_map_to_list.
  - intros [k v]. unfold onlyNew. cbn [fst snd].
    rewrite list_elem_of_In, in_flat_map. split.
    + intros ([k2 v2] & Hin & Hout).
      apply list_elem_of_In in Hin. rewrite P2 in Hin. apply elem_of_map_to_list in Hin.
      destruct (oldOpts !! k2) as [ov|] eqn:Eo; [destruct Hout|].
      destruct Hout as [[= <- <-] | []]. auto.
    + intros [Ho Hn]. exists (k, v). split.
      * apply list_elem_of_In. rewrite P2. now apply elem_of_map_to_list.
      * rewrite Ho. now left.
Qed.

(** C1 (amended).  Every call on given old/new create options returns the
    space-joined text of the same assignments: first, each once, those
    for the old keys whose value changed (the new value) or that are gone
    (the reset value), then, each once, those for the keys only the new
    options have.  Inside each of the two groups the order is the
    map-visiting order of the call, so two calls agree up to the order
    inside each group, and they are byte-identical when neither group has
    more than one assignment. *)
Theorem ChangeCreateOptions_same_up_to_order cco mods out1 out2 :
  Clause cco mods out1 → Clause cco mods out2 →
  ∃ changed1 added1 changed2 added2 : list (string * string),
    out1 = Join (map assign (changed1 ++ added1)) " "
    ∧ out2 = Join (map assign (changed2 ++ added2)) " "
    ∧ listsOnce (changedOrReset (splitOpts (OldCreateOptions cco))
                                (splitOpts (NewCreateOptions cco))) changed1
    ∧ listsOnce (changedOrReset (splitOpts (OldCreateOptions cco))
                                (splitOpts (NewCreateOptions cco))) changed2
    ∧ listsOnce (onlyNew (splitOpts (OldCreateOptions cco))
                         (splitOpts (NewCreateOptions cco))) added1
    ∧ listsOnce (onlyNew (splitOpts (OldCreateOptions cco))
                         (splitOpts (NewCreateOptions cco))) added2
    ∧ changed1 ≡ₚ changed2 ∧ added1 ≡ₚ added2
    ∧ ((length changed1 <= 1)%nat → (length added1 <= 1)%nat → out1 = out2).
Proof.
  intros [o1 o2 oldOpts newOpts P1 P2] [o1' o2' oldOpts' newOpts' P1' P2'].
  subst oldOpts' newOpts'. fold oldOpts newOpts.
  rewrite !subclauses_edits. unfold edits.
  eexists _, _, _, _.
  split; [reflexivity|]. split; [reflexivity|].
  split; [now apply changed_group|]. split; [now apply changed_group|].
  split; [now apply added_group|]. split; [now apply added_group|].
  unfold rangeOrder in *.
  match goal with
  | |- ?c1 ≡ₚ ?c2 ∧ ?a1 ≡ₚ ?a2 ∧ _ =>
      assert (Q1 : c1 ≡ₚ c2) by (apply Permutation_flat_map; now rewrite P1, P1');
      assert (Q2 : a1 ≡ₚ a2) by (apply Permutation_flat_map; now rewrite P2, P2')
  end.
  split; [exact Q1|]. split; [exact Q2|].
  intros L1 L2. rewrite !map_app.
  rewrite (short_perm_eq _ _ (Permutation_map assign Q1)) by now rewrite length_map.
  rewrite (short_perm_eq _ _ (Permutation_map assign Q2)) by now rewrite length_map.
  reflexivity.
Qed.

End Order.
(* ===================================================================== *)
(** * Position hints of AddColumn and ModifyColumn                         *)
(* ===================================================================== *)

Section Positions.
Context `{StructuralModel} `{ColumnModel}.

(** X15.  Which renderings panic.  [AddColumn.Clause] and
    [ModifyColumn.Clause] panic exactly when the column is asked to be
    both first and after another column, whatever the modifiers; with the
    same hints they otherwise return their keyword, the column's
    definition and one and the same position text: [ AFTER <name>],
    [ FIRST] or nothing.  [RenameColumn.Clause] panics on every input. *)
Theorem Clause_position_hints (table : Table) (old col : Column)
    (first : bool) (after : option Column) (mods : StatementModifiers) :
  ((∃ message, AddColumn.Clause (AddColumn.mk table col first after) mods = Panics message)
   ↔ first = true ∧ is_Some after)
  ∧ ((∃ message,
        ModifyColumn.Clause table (ModifyColumn.mk old col first after) mods = Panics message)
     ↔ first = true ∧ is_Some after)
  ∧ (¬ (first = true ∧ is_Some after) →
     ∃ position,
       position = match after with
                  | Some other => " AFTER " +:+ EscapeIdentifier (Name other)
                  | None => if first then " FIRST" else ""
                  end
       ∧ AddColumn.Clause (AddColumn.mk table col first after) mods
         = Returns ("ADD COLUMN " +:+ Column_Definition col table +:+ position)
       ∧ ModifyColumn.Clause table (ModifyColumn.mk old col first after) mods
         = Returns ("MODIFY COLUMN " +:+ Column_Definition col table +:+ position))
  ∧ (∀ rc, ∃ message, RenameColumn.Clause rc mods = Panics message).
Proof.
  unfold AddColumn.Clause, ModifyColumn.Clause, RenameColumn.Clause.
  cbn [AddColumn.PositionFirst AddColumn.PositionAfter AddColumn.column AddColumn.table
       ModifyColumn.PositionFirst ModifyColumn.PositionAfter ModifyColumn.NewColumn].
  split; [|split; [|split]].
  - destruct first, after as [other|]; split.
    all: try (intros [message E]; discriminate E).
    all: try (intros [E [other' E']]; discriminate).
    + intros _. split; [reflexivity | eauto].
    + intros _. eauto.
  - destruct first, after as [other|]; split.
    all: try (intros [message E]; discriminate E).
    all: try (intros [E [other' E']]; discriminate).
    + intros _. split; [reflexivity | eauto].
    + intros _. eauto.
  - intros Hno. destruct first, after as [other|].
    + destruct Hno. split; [reflexivity | eauto].
    + eexists. split; [reflexivity|]. split; reflexivity.
    + eexists. split; [reflexivity|]. split; reflexivity.
    + eexists. split; [reflexivity|]. split; reflexivity.
  - intros rc. eauto.
Qed.

End Positions.

(* ===================================================================== *)
(** * The statements at concrete clauses                                   *)
(* ===================================================================== *)

Section Concrete.
Import strings reading ModifyColumn.
#[local] Existing Instance noTables.

Lemma digits_of (n : string) :
  n ≠ "" → allBytes strconv.isDigit n = true → digits n.
Proof. now split. Qed.

Lemma isDecimal_of t p s rest :
  t = "decimal(" +:+ p +:+ "," +:+ s +:+ ")" +:+ rest → digits p → digits s →
  isDecimal t p s.
Proof. intros -> Hp Hs. repeat split; try apply Hp; try apply Hs. now exists "decimal", rest. Qed.

(** C3.  Three evaluations of the [enum] rule.  Replacing the last value
    [b] by the value [b'c], which the list writes with a doubled quote,
    leaves the old list without its closing parenthesis a prefix of the
    new one: nothing is appended, and the change is reported safe.
    Swapping two values that differ in case only is reported safe: the
    lower-cased strings are equal.  Appending the value [unsigned] is
    reported unsafe: the signedness guard, a substring test, comes
    first. *)
Lemma Unsafe_enum_replaced_value :
  let replaced := retype "enum('a','b')" "enum('a','b''c')" in
  let swapped := retype "enum('A','a')" "enum('a','A')" in
  let appended := retype "enum('a')" "enum('a','unsigned')" in
  (CharSet (OldColumn replaced) = CharSet (NewColumn replaced)
   ∧ bothStart "enum" (oldTypeOf replaced) (newTypeOf replaced)
   ∧ Unsafe replaced = false)
  ∧ (CharSet (OldColumn swapped) = CharSet (NewColumn swapped)
     ∧ bothStart "enum" (oldTypeOf swapped) (newTypeOf swapped)
     ∧ Unsafe swapped = false)
  ∧ (CharSet (OldColumn appended) = CharSet (NewColumn appended)
     ∧ bothStart "enum" (oldTypeOf appended) (newTypeOf appended)
     ∧ newTypeOf appended = "enum('a'" +:+ ",'unsigned')"
     ∧ Unsafe appended = true).
Proof.
  cbv zeta. split; [|split].
  - split; [reflexivity|]. split; [split; reflexivity | reflexivity].
  - split; [reflexivity|]. split; [split; reflexivity | reflexivity].
  - split; [reflexivity|]. split; [split; reflexivity|]. split; reflexivity.
Qed.

Lemma Unsafe_signedness_flip_witness :
  let mc := retype "int unsigned" "bigint" in
  isUnsigned (oldTypeOf mc) = true ∧ isUnsigned (newTypeOf mc) = false ∧ Unsafe mc = true.
Proof.
  cbv zeta. split; [reflexivity | split; [reflexivity|] ].
  apply (Unsafe_signedness_flip (retype "int unsigned" "bigint") eq_refl).
  vm_compute. discriminate.
Defined.

Lemma isVar_of t name n rest :
  t = name +:+ "(" +:+ n +:+ ")" +:+ rest →
  name = "varchar" ∨ name = "varbinary" → digits n →
  isVar t n.
Proof. intros -> Hname Hn. split; [assumption|]. now exists name, rest. Qed.

Lemma isFloat_of t name p s rest :
  t = name +:+ "(" +:+ p +:+ "," +:+ s +:+ ")" +:+ rest →
  name = "float" ∨ name = "double" → digits p → digits s →
  isFloat t p s.
Proof. intros -> Hname Hp Hs. repeat split; try apply Hp; try apply Hs. now exists name, rest. Qed.

Lemma differ (a b : string) : (a =? b)%string = false → a ≠ b.
Proof. apply String.eqb_neq. Qed.

Lemma fitsInt_of (n : string) : (strconv.decimal n <=? strconv.maxInt) = true → fitsInt n.
Proof. apply Z.leb_le. Qed.

Ltac digits_ok := apply digits_of; [discriminate | reflexivity].
Ltac fits := apply fitsInt_of; reflexivity.

(** Beyond the range of [int]: two precisions above the largest [int]
    are both read as the largest [int], so the smaller new precision goes
    unnoticed. *)
Lemma decimal_precision_beyond_int :
  let mc := retype "decimal(99999999999999999999,2)" "decimal(10000000000000000000,2)" in
  CharSet (OldColumn mc) = CharSet (NewColumn mc)
  ∧ isUnsigned (oldTypeOf mc) = isUnsigned (newTypeOf mc)
  ∧ oldTypeOf mc ≠ newTypeOf mc
  ∧ bothStart "decimal" (oldTypeOf mc) (newTypeOf mc)
  ∧ isDecimal (oldTypeOf mc) "99999999999999999999" "2"
  ∧ isDecimal (newTypeOf mc) "10000000000000000000" "2"
  ∧ strconv.decimal "10000000000000000000" < strconv.decimal "99999999999999999999"
  ∧ Unsafe mc = false.
Proof.
  cbv zeta. split; [reflexivity|]. split; [reflexivity|]. split; [now apply differ|].
  split; [split; reflexivity|].
  split; [apply (isDecimal_of _ _ _ ""); [reflexivity | digits_ok | digits_ok]|].
  split; [apply (isDecimal_of _ _ _ ""); [reflexivity | digits_ok | digits_ok]|].
  split; reflexivity.
Qed.

Ltac distinct := apply differ; reflexivity.
Ltac reads_decimal := eapply (isDecimal_of _ _ _ ""); [reflexivity | ..]; auto.
Ltac reads_var name := eapply (isVar_of _ name _ ""); [reflexivity | ..]; auto.
Ltac reads_float name := eapply (isFloat_of _ name _ _ ""); [reflexivity | ..]; auto.

Lemma Unsafe_decimal_witness :
  Unsafe (retype "decimal(10,2)" "decimal(12,2)") = false
  ∧ Unsafe (retype "decimal(10,2)" "decimal(8,2)") = true
  ∧ Unsafe (retype "decimal(10,2)" "decimal(10,1)") = true
  ∧ Unsafe (retype "decimal(10,2)" "decimal") = true.
Proof.
  assert (D2 : digits "2") by digits_ok. assert (D1 : digits "1") by digits_ok.
  assert (D8 : digits "8") by digits_ok. assert (D10 : digits "10") by digits_ok.
  assert (D12 : digits "12") by digits_ok.
  assert (F2 : fitsInt "2") by fits. assert (F1 : fitsInt "1") by fits.
  assert (F8 : fitsInt "8") by fits. assert (F10 : fitsInt "10") by fits.
  assert (F12 : fitsInt "12") by fits.
  split; [|split; [|split]].
  - assert (Hd : oldTypeOf (retype "decimal(10,2)" "decimal(12,2)")
                 ≠ newTypeOf (retype "decimal(10,2)" "decimal(12,2)")) by distinct.
    refine (proj2 (proj1 (Unsafe_decimal (retype "decimal(10,2)" "decimal(12,2)")
              eq_refl eq_refl Hd (conj eq_refl eq_refl)) "10" "2" "12" "2" _ _ F10 F2 F12 F2) _);
      [reads_decimal | reads_decimal | split; now apply Z.leb_le].
  - assert (Hd : oldTypeOf (retype "decimal(10,2)" "decimal(8,2)")
                 ≠ newTypeOf (retype "decimal(10,2)" "decimal(8,2)")) by distinct.
    refine (proj1 (proj1 (Unsafe_decimal (retype "decimal(10,2)" "decimal(8,2)")
              eq_refl eq_refl Hd (conj eq_refl eq_refl)) "10" "2" "8" "2" _ _ F10 F2 F8 F2) _);
      [reads_decimal | reads_decimal | left; reflexivity].
  - assert (Hd : oldTypeOf (retype "decimal(10,2)" "decimal(10,1)")
                 ≠ newTypeOf (retype "decimal(10,2)" "decimal(10,1)")) by distinct.
    refine (proj1 (proj1 (Unsafe_decimal (retype "decimal(10,2)" "decimal(10,1)")
              eq_refl eq_refl Hd (conj eq_refl eq_refl)) "10" "2" "10" "1" _ _ F10 F2 F10 F1) _);
      [reads_decimal | reads_decimal | right; reflexivity].
  - refine (proj2 (Unsafe_decimal (retype "decimal(10,2)" "decimal")
             eq_refl eq_refl _ (conj eq_refl eq_refl)) _); [distinct|].
    right. intros (p & s & _ & _ & name & rest & -> & E). discriminate E.
Defined.

(** Beyond the range of [int]: two lengths above the largest [int]
    compare as equal. *)
Lemma varchar_length_beyond_int :
  let mc := retype "varchar(99999999999999999999)" "varchar(10000000000000000000)" in
  CharSet (OldColumn mc) = CharSet (NewColumn mc)
  ∧ isUnsigned (oldTypeOf mc) = isUnsigned (newTypeOf mc)
  ∧ oldTypeOf mc ≠ newTypeOf mc
  ∧ bothStart "varchar" (oldTypeOf mc) (newTypeOf mc)
  ∧ isVar (oldTypeOf mc) "99999999999999999999"
  ∧ isVar (newTypeOf mc) "10000000000000000000"
  ∧ strconv.decimal "10000000000000000000" < strconv.decimal "99999999999999999999"
  ∧ Unsafe mc = false.
Proof.
  cbv zeta. split; [reflexivity|]. split; [reflexivity|]. split; [now apply differ|].
  split; [split; reflexivity|].
  split; [apply (isVar_of _ "varchar" _ ""); [reflexivity | now left | digits_ok]|].
  split; [apply (isVar_of _ "varchar" _ ""); [reflexivity | now left | digits_ok]|].
  split; reflexivity.
Qed.

Lemma Unsafe_varchar_witness :
  Unsafe (retype "varchar(50)" "varchar(100)") = false
  ∧ Unsafe (retype "varchar(100)" "varchar(50)") = true
  ∧ Unsafe (retype "varbinary(16)" "varbinary") = true.
Proof.
  assert (D50 : digits "50") by digits_ok. assert (D100 : digits "100") by digits_ok.
  assert (F50 : fitsInt "50") by fits. assert (F100 : fitsInt "100") by fits.
  split; [|split].
  - assert (Hd : oldTypeOf (retype "varchar(50)" "varchar(100)")
                 ≠ newTypeOf (retype "varchar(50)" "varchar(100)")) by distinct.
    assert (Ho : isVar (oldTypeOf (retype "varchar(50)" "varchar(100)")) "50")
      by reads_var "varchar".
    assert (Hn : isVar (newTypeOf (retype "varchar(50)" "varchar(100)")) "100")
      by reads_var "varchar".
    destruct (Unsafe (retype "varchar(50)" "varchar(100)")) eqn:E; [|reflexivity].
    apply (proj1 (Unsafe_varchar (retype "varchar(50)" "varchar(100)")
             eq_refl eq_refl Hd (or_introl (conj eq_refl eq_refl))) "50" "100" Ho Hn F50 F100)
      in E.
    discriminate E.
  - assert (Hd : oldTypeOf (retype "varchar(100)" "varchar(50)")
                 ≠ newTypeOf (retype "varchar(100)" "varchar(50)")) by distinct.
    refine (proj2 (proj1 (Unsafe_varchar (retype "varchar(100)" "varchar(50)")
              eq_refl eq_refl Hd (or_introl (conj eq_refl eq_refl))) "100" "50" _ _ F100 F50) _);
      [reads_var "varchar" | reads_var "varchar" | reflexivity].
  - refine (proj2 (Unsafe_varchar (retype "varbinary(16)" "varbinary")
             eq_refl eq_refl _ (or_intror (conj eq_refl eq_refl))) _); [distinct|].
    right. intros (n & _ & name & rest & [-> | ->] & E); discriminate E.
Defined.

(** Beyond the range of [int]: two precisions above the largest [int]
    compare as equal. *)
Lemma double_precision_beyond_int :
  let mc := retype "double(99999999999999999999,2)" "double(10000000000000000000,2)" in
  CharSet (OldColumn mc) = CharSet (NewColumn mc)
  ∧ isUnsigned (oldTypeOf mc) = isUnsigned (newTypeOf mc)
  ∧ oldTypeOf mc ≠ newTypeOf mc
  ∧ bothStart "double" (oldTypeOf mc) (newTypeOf mc)
  ∧ isFloat (oldTypeOf mc) "99999999999999999999" "2"
  ∧ isFloat (newTypeOf mc) "10000000000000000000" "2"
  ∧ strconv.decimal "10000000000000000000" < strconv.decimal "99999999999999999999"
  ∧ Unsafe mc = false.
Proof.
  cbv zeta. split; [reflexivity|]. split; [reflexivity|]. split; [now apply differ|].
  split; [split; reflexivity|].
  split; [apply (isFloat_of _ "double" _ _ ""); [reflexivity | now right | digits_ok | digits_ok]|].
  split; [apply (isFloat_of _ "double" _ _ ""); [reflexivity | now right | digits_ok | digits_ok]|].
  split; reflexivity.
Qed.

Lemma Unsafe_float_double_witness :
  Unsafe (retype "double" "float") = true
  ∧ Unsafe (retype "double(8,2)" "double") = false
  ∧ Unsafe (retype "double" "double(8,2)") = true
  ∧ Unsafe (retype "float(8,2)" "double(9,2)") = false
  ∧ Unsafe (retype "float(8,2)" "float(8,1)") = true.
Proof.
  assert (D1 : digits "1") by digits_ok. assert (D2 : digits "2") by digits_ok.
  assert (D8 : digits "8") by digits_ok. assert (D9 : digits "9") by digits_ok.
  assert (F1 : fitsInt "1") by fits. assert (F2 : fitsInt "2") by fits.
  assert (F8 : fitsInt "8") by fits. assert (F9 : fitsInt "9") by fits.
  split; [|split; [|split; [|split]]].
  - exact (proj1 (Unsafe_float_double (retype "double" "float")) eq_refl eq_refl).
  - refine (proj1 (proj2 (Unsafe_float_double (retype "double(8,2)" "double"))
             eq_refl eq_refl _ (or_intror (or_introl (conj eq_refl eq_refl)))) eq_refl); distinct.
  - refine (proj1 (proj2 (proj2 (Unsafe_float_double (retype "double" "double(8,2)"))
             eq_refl eq_refl _ (or_intror (or_introl (conj eq_refl eq_refl))))) eq_refl eq_refl);
      distinct.
  - assert (Hd : oldTypeOf (retype "float(8,2)" "double(9,2)")
                 ≠ newTypeOf (retype "float(8,2)" "double(9,2)")) by distinct.
    assert (Ho : isFloat (oldTypeOf (retype "float(8,2)" "double(9,2)")) "8" "2")
      by reads_float "float".
    assert (Hn : isFloat (newTypeOf (retype "float(8,2)" "double(9,2)")) "9" "2")
      by reads_float "double".
    destruct (Unsafe (retype "float(8,2)" "double(9,2)")) eqn:E; [|reflexivity].
    apply (proj2 (proj2 (proj2 (Unsafe_float_double (retype "float(8,2)" "double(9,2)"))
             eq_refl eq_refl Hd (or_intror (or_intror (conj eq_refl eq_refl)))))
             "8" "2" "9" "2" Ho Hn F8 F2 F9 F2) in E.
    destruct E as [E | E]; discriminate E.
  - assert (Hd : oldTypeOf (retype "float(8,2)" "float(8,1)")
                 ≠ newTypeOf (retype "float(8,2)" "float(8,1)")) by distinct.
    refine (proj2 (proj2 (proj2 (proj2 (Unsafe_float_double (retype "float(8,2)" "float(8,1)"))
             eq_refl eq_refl Hd (or_introl (conj eq_refl eq_refl))))
             "8" "2" "8" "1" _ _ F8 F2 F8 F1) _);
      [reads_float "float" | reads_float "float" | right; reflexivity].
Defined.

Lemma Unsafe_time_timestamp_witness :
  Unsafe (retype "timestamp" "time(6)") = false
  ∧ Unsafe (retype "time" "timestamp(6)") = false
  ∧ Unsafe (retype "timestamp(6)" "time") = true.
Proof.
  assert (D6 : digits "6") by digits_ok.
  split; [|split].
  - exact (proj1 (Unsafe_time_timestamp (retype "timestamp" "time(6)") eq_refl
             (or_introl (conj (or_introl eq_refl)
                              (or_intror (ex_intro _ "6" (conj D6 eq_refl)))))) eq_refl).
  - exact (proj1 (Unsafe_time_timestamp (retype "time" "timestamp(6)") eq_refl
             (or_intror (conj (or_introl eq_refl)
                              (or_intror (ex_intro _ "6" (conj D6 eq_refl)))))) eq_refl).
  - exact (proj1 (proj2 (Unsafe_time_timestamp (retype "timestamp(6)" "time") eq_refl
             (or_introl (conj (or_intror (ex_intro _ "6" (conj D6 eq_refl)))
                              (or_introl eq_refl))))) eq_refl eq_refl).
Defined.

Import ChangeCreateOptions.

Lemma dropTwo_opts :
  map_to_list (splitOpts (OldCreateOptions dropTwo))
  = [("KEY_BLOCK_SIZE", "8"); ("ROW_FORMAT", "COMPRESSED")]
  ∧ map_to_list (splitOpts (NewCreateOptions dropTwo)) = [].
Proof. split; vm_compute; reflexivity. Qed.

Lemma dropTwo_key_first : Clause dropTwo anyMods "KEY_BLOCK_SIZE=0 ROW_FORMAT=DEFAULT".
Proof.
  destruct dropTwo_opts as [Eo En].
  apply (Clause_may_return dropTwo anyMods
           [("KEY_BLOCK_SIZE", "8"); ("ROW_FORMAT", "COMPRESSED")] []);
    unfold rangeOrder; rewrite ?Eo, ?En; [reflexivity | reflexivity |].
  vm_compute. reflexivity.
Qed.

Lemma dropTwo_row_first : Clause dropTwo anyMods "ROW_FORMAT=DEFAULT KEY_BLOCK_SIZE=0".
Proof.
  destruct dropTwo_opts as [Eo En].
  apply (Clause_may_return dropTwo anyMods
           [("ROW_FORMAT", "COMPRESSED"); ("KEY_BLOCK_SIZE", "8")] []);
    unfold rangeOrder; rewrite ?Eo, ?En; [apply perm_swap | reflexivity |].
  vm_compute. reflexivity.
Qed.

(** C1, as stated, fails: the two keys of the old options are visited in
    either order, and the two calls return different text. *)
Lemma create_options_order_varies :
  Clause dropTwo anyMods "KEY_BLOCK_SIZE=0 ROW_FORMAT=DEFAULT"
  ∧ Clause dropTwo anyMods "ROW_FORMAT=DEFAULT KEY_BLOCK_SIZE=0"
  ∧ "KEY_BLOCK_SIZE=0 ROW_FORMAT=DEFAULT" ≠ "ROW_FORMAT=DEFAULT KEY_BLOCK_SIZE=0".
Proof.
  split; [exact dropTwo_key_first | split; [exact dropTwo_row_first | discriminate]].
Qed.

Lemma ChangeCreateOptions_same_up_to_order_witness :
  ∃ changed1 added1 changed2 added2 : list (string * string),
    "KEY_BLOCK_SIZE=0 ROW_FORMAT=DEFAULT" = Join (map options.assign (changed1 ++ added1)) " "
    ∧ "ROW_FORMAT=DEFAULT KEY_BLOCK_SIZE=0" = Join (map options.assign (changed2 ++ added2)) " "
    ∧ options.listsOnce (options.changedOrReset (splitOpts (OldCreateOptions dropTwo))
                                                (splitOpts (NewCreateOptions dropTwo))) changed1
    ∧ options.listsOnce (options.changedOrReset (splitOpts (OldCreateOptions dropTwo))
                                                (splitOpts (NewCreateOptions dropTwo))) changed2
    ∧ options.listsOnce (options.onlyNew (splitOpts (OldCreateOptions dropTwo))
                                         (splitOpts (NewCreateOptions dropTwo))) added1
    ∧ options.listsOnce (options.onlyNew (splitOpts (OldCreateOptions dropTwo))
                                         (splitOpts (NewCreateOptions dropTwo))) added2
    ∧ changed1 ≡ₚ changed2 ∧ added1 ≡ₚ added2
    ∧ ((length changed1 <= 1)%nat → (length added1 <= 1)%nat →
       "KEY_BLOCK_SIZE=0 ROW_FORMAT=DEFAULT" = "ROW_FORMAT=DEFAULT KEY_BLOCK_SIZE=0").
Proof.
  exact (ChangeCreateOptions_same_up_to_order dropTwo anyMods _ _
           dropTwo_key_first dropTwo_row_first).
Defined.

Lemma Unsafe_decimal_in_range_witness :
  Unsafe (retype "decimal(10,2) unsigned" "decimal(8,2) unsigned") = true.
Proof.
  assert (D2 : digits "2") by digits_ok. assert (D8 : digits "8") by digits_ok.
  assert (D10 : digits "10") by digits_ok.
  refine (Unsafe_decimal_in_range
            (retype "decimal(10,2) unsigned" "decimal(8,2) unsigned") "10" "2" "8" "2"
            eq_refl eq_refl _ _ _ _ _ _ _);
    [ distinct
    | eapply (isDecimal_of _ _ _ " unsigned"); [reflexivity | auto ..]
    | eapply (isDecimal_of _ _ _ " unsigned"); [reflexivity | auto ..]
    | now apply fitsInt_of .. ].
Defined.

Lemma Unsafe_varchar_in_range_witness :
  Unsafe (retype "varbinary(16)" "varbinary(32)") = false.
Proof.
  assert (D16 : digits "16") by digits_ok. assert (D32 : digits "32") by digits_ok.
  refine (Unsafe_varchar_in_range (retype "varbinary(16)" "varbinary(32)") "16" "32"
            eq_refl eq_refl _ (or_intror (conj eq_refl eq_refl)) _ _ _ _);
    [ distinct
    | eapply (isVar_of _ "varbinary" _ ""); [reflexivity | auto ..]
    | eapply (isVar_of _ "varbinary" _ ""); [reflexivity | auto ..]
    | now apply fitsInt_of .. ].
Defined.

Lemma Unsafe_float_double_in_range_witness :
  Unsafe (retype "float(8,2)" "double(7,2)") = true.
Proof.
  assert (D2 : digits "2") by digits_ok. assert (D7 : digits "7") by digits_ok.
  assert (D8 : digits "8") by digits_ok.
  refine (Unsafe_float_double_in_range (retype "float(8,2)" "double(7,2)") "8" "2" "7" "2"
            eq_refl eq_refl _ (or_intror (or_intror (conj eq_refl eq_refl))) _ _ _ _ _ _);
    [ distinct | reads_float "float" | reads_float "double" | now apply fitsInt_of .. ].
Defined.

Lemma Unsafe_float_double_unparsed_witness :
  Unsafe (retype "float(10)" "float(12)") = true.
Proof.
  refine (Unsafe_float_double_unparsed (retype "float(10)" "float(12)")
            eq_refl eq_refl _ (or_introl (conj eq_refl eq_refl)) eq_refl eq_refl _);
    [distinct|].
  left. intros (p & s & [_ Hp] & _ & name & rest & Hname & E).
  change (oldTypeOf (retype "float(10)" "float(12)")) with "float(10)" in E.
  destruct Hname as [-> | ->]; [|discriminate E].
  simpl in E. injection E as E.
  destruct p as [|c p]; [discriminate E|]. simpl in E. injection E as <- E.
  destruct p as [|c p]; [discriminate E|]. simpl in E. injection E as <- E.
  destruct p as [|c p]; [discriminate E|]. simpl in E. injection E as <- E.
  discriminate Hp.
Defined.

Lemma ChangeAutoIncrement_policy_witness :
  ChangeAutoIncrement.Clause (ChangeAutoIncrement.mk 5 3)
    (mkStatementModifiers NextAutoIncIfIncreased false false) = ""
  ∧ ChangeAutoIncrement.Clause (ChangeAutoIncrement.mk 3 5)
      (mkStatementModifiers NextAutoIncIfIncreased false false) = "AUTO_INCREMENT = 5"
  ∧ ChangeAutoIncrement.Clause (ChangeAutoIncrement.mk 1 5)
      (mkStatementModifiers NextAutoIncIfAlready false false) = "".
Proof.
  split; [|split].
  - apply (proj2 (proj1 (proj2 (ChangeAutoIncrement_policy (ChangeAutoIncrement.mk 5 3)
             (mkStatementModifiers NextAutoIncIfIncreased false false))) eq_refl)).
    cbn. lia.
  - apply (proj2 (proj2 (proj2 (proj2 (ChangeAutoIncrement_policy (ChangeAutoIncrement.mk 3 5)
             (mkStatementModifiers NextAutoIncIfIncreased false false)))))).
    intros E. apply (proj1 (proj1 (proj2 (ChangeAutoIncrement_policy (ChangeAutoIncrement.mk 3 5)
             (mkStatementModifiers NextAutoIncIfIncreased false false))) eq_refl)) in E.
    cbn in E. lia.
  - apply (proj2 (proj1 (proj2 (proj2 (ChangeAutoIncrement_policy (ChangeAutoIncrement.mk 1 5)
             (mkStatementModifiers NextAutoIncIfAlready false false)))) eq_refl)).
    cbn. lia.
Defined.

Lemma reorder_rename_only_rendering_witness :
  let idx : @Index toyModel := ("by_name", false, "KEY `by_name` (`name`)") in
  let fk : @ForeignKey toyModel :=
    ("fk_owner", "CONSTRAINT `fk_owner` FOREIGN KEY (`owner`) REFERENCES `users` (`id`)") in
  let relaxed := mkStatementModifiers NextAutoIncAlways false false in
  let strict := mkStatementModifiers NextAutoIncAlways true true in
  (AddIndex.Clause (AddIndex.mk idx true) relaxed = ""
   ∧ DropIndex.Clause (DropIndex.mk idx true) relaxed = "")
  ∧ (AddIndex.Clause (AddIndex.mk idx true) strict = "ADD KEY `by_name` (`name`)"
     ∧ DropIndex.Clause (DropIndex.mk idx true) strict = "DROP KEY `by_name`")
  ∧ (AddForeignKey.Clause (AddForeignKey.mk fk true) relaxed = ""
     ∧ DropForeignKey.Clause (DropForeignKey.mk fk true) relaxed = "")
  ∧ DropForeignKey.Clause (DropForeignKey.mk fk true) strict = "DROP FOREIGN KEY `fk_owner`".
Proof.
  cbv zeta.
  pose (idx := ("by_name", false, "KEY `by_name` (`name`)") : @Index toyModel).
  pose (fk := ("fk_owner",
               "CONSTRAINT `fk_owner` FOREIGN KEY (`owner`) REFERENCES `users` (`id`)")
              : @ForeignKey toyModel).
  pose (relaxed := mkStatementModifiers NextAutoIncAlways false false).
  pose (strict := mkStatementModifiers NextAutoIncAlways true true).
  destruct (@reorder_rename_only_rendering toyModel idx fk relaxed) as (R1 & _ & R3 & _).
  destruct (@reorder_rename_only_rendering toyModel idx fk strict) as (_ & S2 & _ & S4).
  split; [exact (R1 eq_refl)|]. split.
  - destruct (S2 eq_refl) as (A & D & _). split; [exact A | exact D].
  - split; [exact (R3 eq_refl)|]. destruct (S4 eq_refl) as (_ & D & _). exact D.
Defined.

Lemma isFsp_of t name n rest :
  t = name +:+ "(" +:+ n +:+ ")" +:+ rest →
  name ≠ "" → ContainsRune name "(" = false → digits n →
  isFsp t n.
Proof. intros -> Hname Hparen Hn. split; [assumption|]. now exists name, rest. Qed.

Lemma Unsafe_fractional_seconds_witness :
  Unsafe (retype "datetime" "datetime(6)") = false
  ∧ Unsafe (retype "datetime(6)" "datetime") = true
  ∧ Unsafe (retype "time(6)" "time(3)") = true.
Proof.
  assert (D3 : digits "3") by digits_ok. assert (D6 : digits "6") by digits_ok.
  split; [|split].
  - refine (proj1 (Unsafe_fractional_seconds (retype "datetime" "datetime(6)")
              eq_refl eq_refl _ (or_intror (conj eq_refl eq_refl))) eq_refl).
    distinct.
  - refine (proj1 (proj2 (Unsafe_fractional_seconds (retype "datetime(6)" "datetime")
              eq_refl eq_refl _ (or_intror (conj eq_refl eq_refl)))) eq_refl eq_refl).
    distinct.
  - refine (proj1 (proj2 (proj2 (Unsafe_fractional_seconds (retype "time(6)" "time(3)")
              eq_refl eq_refl _ (or_introl (conj eq_refl eq_refl))))) "6" "3" _ _).
    + distinct.
    + apply (isFsp_of _ "time" "6" ""); [reflexivity | discriminate | reflexivity | exact D6].
    + apply (isFsp_of _ "time" "3" ""); [reflexivity | discriminate | reflexivity | exact D3].
Defined.

Lemma Unsafe_safe_only_within_family_witness :
  let mc := retype "int(11)" "bigint(20)" in
  CharSet (OldColumn mc) = CharSet (NewColumn mc)
  ∧ (oldTypeOf mc = newTypeOf mc
     ∨ (isUnsigned (oldTypeOf mc) = isUnsigned (newTypeOf mc)
        ∧ families.related (oldTypeOf mc) (newTypeOf mc))).
Proof.
  exact (Unsafe_safe_only_within_family (retype "int(11)" "bigint(20)") eq_refl).
Defined.

Lemma Unsafe_ranked_witness :
  Unsafe (retype "int(11)" "bigint(20)") = false
  ∧ Unsafe (retype "bigint(20)" "int(11)") = true
  ∧ Unsafe (retype "int(11)" "int(4)") = false
  ∧ Unsafe (retype "mediumtext" "text") = true.
Proof.
  split; [|split; [|split]].
  - exact (Unsafe_ranked (retype "int(11)" "bigint(20)") intRank 3 4 "int" "bigint"
             eq_refl eq_refl (list_elem_of_here _ _) eq_refl eq_refl eq_refl eq_refl).
  - exact (Unsafe_ranked (retype "bigint(20)" "int(11)") intRank 4 3 "bigint" "int"
             eq_refl eq_refl (list_elem_of_here _ _) eq_refl eq_refl eq_refl eq_refl).
  - exact (Unsafe_ranked (retype "int(11)" "int(4)") intRank 3 3 "int" "int"
             eq_refl eq_refl (list_elem_of_here _ _) eq_refl eq_refl eq_refl eq_refl).
  - exact (Unsafe_ranked (retype "mediumtext" "text") textRank 2 1 "mediumtext" "text"
             eq_refl eq_refl
             (list_elem_of_further _ _ _ (list_elem_of_further _ _ _ (list_elem_of_here _ _)))
             eq_refl eq_refl eq_refl eq_refl).
Defined.

Lemma Unsafe_fixed_width_witness :
  Unsafe (retype "char(10)" "char(20)") = true
  ∧ Unsafe (retype "varbinary(16)" "binary(16)") = true.
Proof.
  split.
  - apply (Unsafe_fixed_width (retype "char(10)" "char(20)")
             (or_introl (or_introl eq_refl))). distinct.
  - apply (Unsafe_fixed_width (retype "varbinary(16)" "binary(16)")
             (or_intror (or_intror eq_refl))). distinct.
Defined.

Lemma type_patterns_read_witness :
  (∃ whole, regexp.FindStringSubmatch reDecimal "decimal(10,2) unsigned"
            = Some [whole; "10"; "2"])
  ∧ regexp.FindStringSubmatch reVar "varchar" = None.
Proof.
  assert (D2 : digits "2") by digits_ok. assert (D10 : digits "10") by digits_ok.
  split.
  - apply (proj1 type_patterns_read "decimal(10,2) unsigned" "10" "2").
    apply (isDecimal_of _ _ _ " unsigned"); [reflexivity | exact D10 | exact D2].
  - apply (proj1 (proj2 (proj2 (proj2 type_patterns_read))) "varchar").
    intros (n & _ & name & rest & Hname & E).
    destruct Hname as [-> | ->]; discriminate E.
Defined.

Import options.

Lemma splitOpts_tokens_witness :
  splitOpts ("ROW_FORMAT=COMPRESSED" +:+ " " +:+ "KEY_BLOCK_SIZE" +:+ "=" +:+ "8")
  = <["KEY_BLOCK_SIZE" := "8"]> (splitOpts "ROW_FORMAT=COMPRESSED")
  ∧ splitOpts ("ROW_FORMAT=COMPRESSED" +:+ " " +:+ "a=b=c") = splitOpts "ROW_FORMAT=COMPRESSED".
Proof.
  split.
  - apply (proj1 (proj2 splitOpts_tokens) "ROW_FORMAT=COMPRESSED" "KEY_BLOCK_SIZE" "8");
      split; reflexivity.
  - apply (proj2 (proj2 splitOpts_tokens) "ROW_FORMAT=COMPRESSED" "a=b=c");
      [reflexivity | cbn; lia].
Defined.

Lemma splitOpts_clean_witness : clean "ROW_FORMAT" ∧ clean "COMPRESSED".
Proof.
  apply (splitOpts_clean "ROW_FORMAT=COMPRESSED KEY_BLOCK_SIZE=8" "ROW_FORMAT" "COMPRESSED").
  vm_compute. reflexivity.
Defined.

Lemma Clause_assignments_witness :
  ∃ pairs,
    "KEY_BLOCK_SIZE=0 ROW_FORMAT=DEFAULT" = Join (map assign pairs) " "
    ∧ NoDup (pairs.*1)
    ∧ ∀ k v, (k, v) ∈ pairs ↔
        (∃ ov, splitOpts (OldCreateOptions dropTwo) !! k = Some ov
               ∧ splitOpts (NewCreateOptions dropTwo) !! k = Some v ∧ v ≠ ov)
        ∨ (is_Some (splitOpts (OldCreateOptions dropTwo) !! k)
           ∧ splitOpts (NewCreateOptions dropTwo) !! k = None ∧ v = resetValue k)
        ∨ (splitOpts (OldCreateOptions dropTwo) !! k = None
           ∧ splitOpts (NewCreateOptions dropTwo) !! k = Some v).
Proof.
  exact (Clause_assignments dropTwo anyMods _ dropTwo_key_first).
Defined.

Lemma reordered_opts :
  map_to_list (splitOpts (OldCreateOptions reordered))
  = [("KEY_BLOCK_SIZE", "8"); ("ROW_FORMAT", "COMPRESSED")]
  ∧ map_to_list (splitOpts (NewCreateOptions reordered))
    = [("KEY_BLOCK_SIZE", "8"); ("ROW_FORMAT", "COMPRESSED")].
Proof. split; vm_compute; reflexivity. Qed.

Lemma reordered_empty : Clause reordered anyMods "".
Proof.
  destruct reordered_opts as [Eo En].
  apply (Clause_may_return reordered anyMods
           [("KEY_BLOCK_SIZE", "8"); ("ROW_FORMAT", "COMPRESSED")]
           [("KEY_BLOCK_SIZE", "8"); ("ROW_FORMAT", "COMPRESSED")]);
    unfold rangeOrder; rewrite ?Eo, ?En; [reflexivity | reflexivity |].
  vm_compute. reflexivity.
Qed.

Lemma Clause_empty_iff_witness :
  splitOpts "ROW_FORMAT=COMPRESSED KEY_BLOCK_SIZE=8"
  = splitOpts "KEY_BLOCK_SIZE=8 ROW_FORMAT=COMPRESSED"
  ∧ splitOpts "ROW_FORMAT=COMPRESSED KEY_BLOCK_SIZE=8" ≠ splitOpts "".
Proof.
  split.
  - exact (proj1 (Clause_empty_iff reordered anyMods "" reordered_empty) eq_refl).
  - intros E.
    pose proof (proj2 (Clause_empty_iff dropTwo anyMods _ dropTwo_key_first) E) as E'.
    discriminate E'.
Defined.

Lemma Clause_round_trip_witness :
  applied "KEY_BLOCK_SIZE=0 ROW_FORMAT=DEFAULT" (splitOpts "ROW_FORMAT=COMPRESSED KEY_BLOCK_SIZE=8")
    !! "KEY_BLOCK_SIZE" = Some "0"
  ∧ applied "" (splitOpts (OldCreateOptions reordered)) = splitOpts (NewCreateOptions reordered).
Proof.
  split.
  - exact (proj1 (Clause_round_trip dropTwo anyMods _ dropTwo_key_first) "KEY_BLOCK_SIZE").
  - apply (proj2 (Clause_round_trip reordered anyMods "" reordered_empty)).
    intros k. destruct reordered_opts as [Eo En].
    rewrite <- !elem_of_dom. intros Hk.
    assert (E : splitOpts (OldCreateOptions reordered) = splitOpts (NewCreateOptions reordered))
      by (apply map_to_list_inj; now rewrite Eo, En).
    now rewrite <- E.
Defined.

Lemma Clause_position_hints_witness :
  (∃ message,
     @AddColumn.Clause toyModel toyColumns
       (@AddColumn.mk toyColumns tt (mkColumn "c" "int(11)" "") true (Some (mkColumn "b" "int(11)" "")))
       anyMods = Panics message)
  ∧ @ModifyColumn.Clause toyModel toyColumns (tt : @Table toyColumns)
      (ModifyColumn.mk (mkColumn "c" "int(11)" "") (mkColumn "c" "bigint(20)" "") false
                       (Some (mkColumn "b" "int(11)" "")))
      anyMods = Returns "MODIFY COLUMN `c` bigint(20) AFTER `b`".
Proof.
  split.
  - apply (proj1 (@Clause_position_hints toyModel toyColumns (tt : @Table toyColumns)
                    (mkColumn "c" "int(11)" "") (mkColumn "c" "int(11)" "") true
                    (Some (mkColumn "b" "int(11)" "")) anyMods)).
    split; [reflexivity | eauto].
  - destruct (proj1 (proj2 (proj2 (@Clause_position_hints toyModel toyColumns (tt : @Table toyColumns)
                    (mkColumn "c" "int(11)" "") (mkColumn "c" "bigint(20)" "") false
                    (Some (mkColumn "b" "int(11)" "")) anyMods))))
      as (position & -> & _ & E).
    + intros [E _]. discriminate E.
    + exact E.
Defined.

End Concrete.
